(** * Binary paintshop: the spin-glass encoding and the colour-change score

    Shallow embedding of the two pure functions of
    [docs/qaoa/binary_paintshop.ipynb]:

    - [spin_glass], the generator that turns a car sequence into the
      interactions of the spin glass, and
    - [color_changes], the score that counts colour changes of a painted
      car sequence.

    Python integers are modelled as [Z], Python lists as [list], the two
    local [set()] objects as [gset Z].

    The development also covers what the notebook builds around the two
    functions (the generated car sequence, [phase_separator], the choice of
    the best measured bitstring) and the file names of the tasks of
    [docs/guide/data_collection.ipynb], with Python strings as [string]. *)

From Stdlib Require Import Ascii.
From stdpp Require Import gmap list pretty.

Open Scope Z_scope.

(** ** Python sequences *)

(** [xs[1:]]: a fresh list without the first element. *)
Definition py_tail {A} (xs : list A) : list A := drop 1 xs.

(** [zip(xs, xs[1:])], the adjacent position pairs in input order. *)
Definition adjacent_pairs {A} (xs : list A) : list (A * A) :=
  zip xs (py_tail xs).

(** ** [spin_glass] *)

Module SpinGlass.

(** An interaction is the tuple [car0, car1, sign] the generator yields. *)
Definition interaction : Type := Z * Z * Z.

Definition ferromagnetic : Z := -1.
Definition antiferromagnetic : Z := 1.


(** One iteration of the [for car0, car1 in zip(...)] loop: the new value
    of [appeared_already] and what is yielded, if anything.  The
    [continue] of the first branch leaves the set untouched. *)
Definition body (appeared_already : gset Z) (p : Z * Z)
  : gset Z * option interaction :=
  let '(car0, car1) := p in
  if decide (car0 = car1) then (appeared_already, None)
  else if decide (car0 ∈ appeared_already) then
    let appeared_already := appeared_already ∪ {[car0]} in
    if decide (car1 ∈ appeared_already)
    then (appeared_already, Some (car0, car1, ferromagnetic))
    else (appeared_already, Some (car0, car1, antiferromagnetic))
  else
    let appeared_already := appeared_already ∪ {[car0]} in
    if decide (car1 ∈ appeared_already)
    then (appeared_already, Some (car0, car1, antiferromagnetic))
    else (appeared_already, Some (car0, car1, ferromagnetic)).

(** The loop over the remaining pairs; the result lists, pair by pair,
    what the iteration yielded ([None] for a skipped pair). *)
Fixpoint loop (appeared_already : gset Z) (pairs : list (Z * Z))
  : list (option interaction) :=
  match pairs with
  | [] => []
  | p :: pairs =>
      let '(appeared_already, y) := body appeared_already p in
      y :: loop appeared_already pairs
  end.

(** What each adjacent position pair contributes, in input order. *)
Definition emissions (car_sequence : list Z) : list (option interaction) :=
  loop ∅ (adjacent_pairs car_sequence).

(** The generator, run to exhaustion. *)
Definition spin_glass (car_sequence : list Z) : list interaction :=
  omap id (emissions car_sequence).

(** The third component of a yielded tuple. *)
Definition sign (t : interaction) : Z := t.2.

End SpinGlass.

Import SpinGlass.

(** ** [color_changes] *)

Module ColorChanges.

(** The values appended to [color_sequence]: an entry of
    [paint_bitstring] as it is, or the [bool] that [not] returns. *)
Inductive color : Type :=
  | IntColor (z : Z)
  | BoolColor (b : bool).

(** Python compares an [int] and a [bool] by numeric value
    ([True == 1], [False == 0]). *)
Definition int_value (c : color) : Z :=
  match c with
  | IntColor z => z
  | BoolColor b => if b then 1 else 0
  end.

(** [color0 != color1] *)
Definition py_ne (color0 color1 : color) : bool :=
  negb (int_value color0 =? int_value color1).

(** [not x] on an integer. *)
Definition py_not (x : Z) : bool := x =? 0.

(** [xs[i]]: indices from [-len(xs)] to [len(xs) - 1] are valid, a
    negative one counts from the end; [None] stands for [IndexError]. *)
Definition py_getitem {A} (xs : list A) (i : Z) : option A :=
  let n := Z.of_nat (length xs) in
  if decide (0 ≤ i < n) then xs !! Z.to_nat i
  else if decide (- n ≤ i < 0) then xs !! Z.to_nat (n + i)
  else None.

(** The first loop, over the cars still to be painted. *)
Fixpoint paint (paint_bitstring : list Z) (painted_once : gset Z)
    (color_sequence : list color) (cars : list Z) : option (list color) :=
  match cars with
  | [] => Some color_sequence
  | car :: cars =>
      if decide (car ∈ painted_once) then
        b ← py_getitem paint_bitstring car;
        paint paint_bitstring painted_once
          (color_sequence ++ [BoolColor (py_not b)]) cars
      else
        b ← py_getitem paint_bitstring car;
        paint paint_bitstring (painted_once ∪ {[car]})
          (color_sequence ++ [IntColor b]) cars
  end.

(** The second loop, over [zip(color_sequence, color_sequence[1:])]. *)
Fixpoint count (paint_change_counter : Z) (pairs : list (color * color)) : Z :=
  match pairs with
  | [] => paint_change_counter
  | (color0, color1) :: pairs =>
      if py_ne color0 color1
      then count (paint_change_counter + 1) pairs
      else count paint_change_counter pairs
  end.

Definition color_changes (paint_bitstring car_sequence : list Z) : option Z :=
  color_sequence ← paint paint_bitstring ∅ [] car_sequence;
  Some (count 0 (adjacent_pairs color_sequence)).

End ColorChanges.

Import ColorChanges.

(** ** The two functions as machines over an explicit store

    Both functions are also given as step relations on a state that holds
    the caller's objects next to the locals, one step per loop iteration,
    branch by branch as the source has them. *)

Module SpinGlassMachine.

Record state : Type := State {
  car_sequence : list Z;          (* the caller's list *)
  slice : list Z;                 (* the copy [car_sequence[1:]] *)
  position : nat;                 (* how far [zip] has advanced *)
  appeared_already : gset Z;
  yielded : list interaction;     (* what the consumer has received *)
  exhausted : bool                (* the generator has returned *)
}.

Definition initial (s : list Z) : state :=
  State s (py_tail s) 0 ∅ [] false.

Inductive step : state → state → Prop :=
  | step_continue s sl i seen out car0 car1 :
      s !! i = Some car0 → sl !! i = Some car1 →
      car0 = car1 →
      step (State s sl i seen out false) (State s sl (S i) seen out false)
  | step_second_second s sl i seen out car0 car1 :
      s !! i = Some car0 → sl !! i = Some car1 →
      car0 ≠ car1 → car0 ∈ seen → car1 ∈ seen ∪ {[car0]} →
      step (State s sl i seen out false)
           (State s sl (S i) (seen ∪ {[car0]})
              (out ++ [(car0, car1, ferromagnetic)]) false)
  | step_second_first s sl i seen out car0 car1 :
      s !! i = Some car0 → sl !! i = Some car1 →
      car0 ≠ car1 → car0 ∈ seen → car1 ∉ seen ∪ {[car0]} →
      step (State s sl i seen out false)
           (State s sl (S i) (seen ∪ {[car0]})
              (out ++ [(car0, car1, antiferromagnetic)]) false)
  | step_first_second s sl i seen out car0 car1 :
      s !! i = Some car0 → sl !! i = Some car1 →
      car0 ≠ car1 → car0 ∉ seen → car1 ∈ seen ∪ {[car0]} →
      step (State s sl i seen out false)
           (State s sl (S i) (seen ∪ {[car0]})
              (out ++ [(car0, car1, antiferromagnetic)]) false)
  | step_first_first s sl i seen out car0 car1 :
      s !! i = Some car0 → sl !! i = Some car1 →
      car0 ≠ car1 → car0 ∉ seen → car1 ∉ seen ∪ {[car0]} →
      step (State s sl i seen out false)
           (State s sl (S i) (seen ∪ {[car0]})
              (out ++ [(car0, car1, ferromagnetic)]) false)
  | step_stop s sl i seen out :
      s !! i = None ∨ sl !! i = None →
      step (State s sl i seen out false) (State s sl i seen out true).

(** A complete run: from the call to the exhaustion of the generator. *)
Definition runs_to (s : list Z) (σ : state) : Prop :=
  rtc step (initial s) σ ∧ exhausted σ = true.

(** What is still to be yielded from a state, by the functional model. *)
Definition pending (σ : state) : list interaction :=
  if exhausted σ then []
  else omap id (loop (appeared_already σ)
                  (drop (position σ) (zip (car_sequence σ) (slice σ)))).

End SpinGlassMachine.

Module ColorChangesMachine.

Inductive control : Type :=
  | Painting (i : nat)                       (* in the first loop *)
  | Counting (tail : list color) (i : nat)   (* in the second loop *)
  | Returned (n : Z)
  | Raised.                                  (* [IndexError] *)

Record state : Type := State {
  paint_bitstring : list Z;       (* the caller's objects *)
  car_sequence : list Z;
  color_sequence : list color;
  painted_once : gset Z;
  paint_change_counter : Z;
  at_ : control
}.

Definition initial (pb cs : list Z) : state :=
  State pb cs [] ∅ 0 (Painting 0).

Inductive step : state → state → Prop :=
  | step_paint_second pb cs colors painted n i car b :
      cs !! i = Some car → car ∈ painted →
      py_getitem pb car = Some b →
      step (State pb cs colors painted n (Painting i))
           (State pb cs (colors ++ [BoolColor (py_not b)]) painted n
              (Painting (S i)))
  | step_paint_first pb cs colors painted n i car b :
      cs !! i = Some car → car ∉ painted →
      py_getitem pb car = Some b →
      step (State pb cs colors painted n (Painting i))
           (State pb cs (colors ++ [IntColor b]) (painted ∪ {[car]}) n
              (Painting (S i)))
  | step_paint_raise pb cs colors painted n i car :
      cs !! i = Some car →
      py_getitem pb car = None →
      step (State pb cs colors painted n (Painting i))
           (State pb cs colors painted n Raised)
  | step_paint_done pb cs colors painted n i :
      cs !! i = None →
      step (State pb cs colors painted n (Painting i))
           (State pb cs colors painted 0 (Counting (py_tail colors) 0))
  | step_count_change pb cs colors painted n tl i color0 color1 :
      colors !! i = Some color0 → tl !! i = Some color1 →
      py_ne color0 color1 = true →
      step (State pb cs colors painted n (Counting tl i))
           (State pb cs colors painted (n + 1) (Counting tl (S i)))
  | step_count_same pb cs colors painted n tl i color0 color1 :
      colors !! i = Some color0 → tl !! i = Some color1 →
      py_ne color0 color1 = false →
      step (State pb cs colors painted n (Counting tl i))
           (State pb cs colors painted n (Counting tl (S i)))
  | step_count_done pb cs colors painted n tl i :
      colors !! i = None ∨ tl !! i = None →
      step (State pb cs colors painted n (Counting tl i))
           (State pb cs colors painted n (Returned n)).

Definition finished (σ : state) : bool :=
  match at_ σ with
  | Returned _ | Raised => true
  | _ => false
  end.

(** The value handed back to the caller, [None] for [IndexError]. *)
Definition outcome (σ : state) : option Z :=
  match at_ σ with
  | Returned n => Some n
  | _ => None
  end.

Definition runs_to (pb cs : list Z) (σ : state) : Prop :=
  rtc step (initial pb cs) σ ∧ finished σ = true.

(** The result the functional model computes from a state onwards. *)
Definition pending (σ : state) : option Z :=
  match at_ σ with
  | Painting i =>
      colors ← paint (paint_bitstring σ) (painted_once σ) (color_sequence σ)
                 (drop i (car_sequence σ));
      Some (count 0 (adjacent_pairs colors))
  | Counting tl i =>
      Some (count (paint_change_counter σ)
              (drop i (zip (color_sequence σ) tl)))
  | Returned n => Some n
  | Raised => None
  end.

End ColorChangesMachine.

(** ** The rest of the paintshop notebook *)

Module Paintshop.

(** [[x for x in range(CAR_PAIR_COUNT)] * 2], the list that
    [np.random.permutation] shuffles into the car sequence. *)
Definition paired_cars (car_pair_count : Z) : list Z :=
  seqZ 0 car_pair_count ++ seqZ 0 car_pair_count.

(** The operation [cirq.ms(interaction * gamma).on(q0, q1)], kept as the
    arguments of the call: the integer factor of [gamma] and the two
    qubits. *)
Record ms_on (Qid : Type) : Type := MsOn {
  factor : Z;
  qubit0 : Qid;
  qubit1 : Qid
}.
Global Arguments MsOn {_} _ _ _.
Global Arguments factor {_} _.
Global Arguments qubit0 {_} _.
Global Arguments qubit1 {_} _.

(** How a generator ends: by exhaustion, by an [IndexError] raised in
    [qubit_register[...]], or by the [ValueError] with which [.on] refuses
    the same qubit twice. *)
Inductive ending : Type :=
  | Exhausted
  | IndexError
  | ValueError.

(** The loop of [phase_separator] over the interactions: the operations
    yielded, and how the generator ends.  The two subscripts are evaluated
    first, in order, then [.on] checks its two arguments.  The register
    holds qubits proper, as [cirq.LineQubit.range] gives them, so that the
    check of [.on] is that the two differ. *)
Fixpoint separate {Qid} `{EqDecision Qid}
    (qubit_register : list Qid) (ts : list interaction)
  : list (ms_on Qid) * ending :=
  match ts with
  | [] => ([], Exhausted)
  | (car_pair0, car_pair1, interaction) :: ts =>
      match py_getitem qubit_register car_pair0 with
      | None => ([], IndexError)
      | Some q0 =>
          match py_getitem qubit_register car_pair1 with
          | None => ([], IndexError)
          | Some q1 =>
              if decide (q0 = q1) then ([], ValueError)
              else
                let '(ops, e) := separate qubit_register ts in
                (MsOn interaction q0 q1 :: ops, e)
          end
      end
  end.

Definition phase_separator {Qid} `{EqDecision Qid}
    (qubit_register : list Qid)
    (car_sequence : list Z) : list (ms_on Qid) * ending :=
  separate qubit_register (spin_glass car_sequence).

(** The globals of the last cell; [best_paint_bitstring] is [None] as long
    as the name is unbound. *)
Record best : Type := Best {
  best_result : Z;
  best_paint_bitstring : option (list Z)
}.

(** The loop of the last cell over the measured bitstrings; [None] stands
    for an [IndexError] out of [color_changes]. *)
Fixpoint best_loop (car_sequence : list Z) (st : best)
    (measurements : list (list Z)) : option best :=
  match measurements with
  | [] => Some st
  | paint_bitstring :: measurements =>
      result ← color_changes paint_bitstring car_sequence;
      if decide (result < best_result st)
      then best_loop car_sequence (Best result (Some paint_bitstring))
             measurements
      else best_loop car_sequence st measurements
  end.

(** [best_result = CAR_PAIR_COUNT], then the loop. *)
Definition best_of (car_pair_count : Z) (car_sequence : list Z)
    (measurements : list (list Z)) : option best :=
  best_loop car_sequence (Best car_pair_count None) measurements.

End Paintshop.

Import Paintshop.

(** ** The task of the data-collection notebook *)

Module ReadoutScan.

(** [str(n)] and [f'{n}'] for an [int]: decimal digits, with a leading
    minus sign for a negative number. *)
Definition str (n : Z) : string := pretty n.

(** [cirq.GridQubit], as far as the notebook uses it. *)
Record GridQubit : Type := {
  row : Z;
  col : Z
}.

Record ReadoutScanTask : Type := {
  dataset_id : string;
  device_name : string;
  n_shots : Z;
  qubit : GridQubit;
  resolution_factor : Z
}.

Definition _abbrev_n_shots (n_shots : Z) : string :=
  if decide (n_shots `mod` 1000 = 0)
  then str (n_shots `div` 1000) +:+ "k"
  else str n_shots.

Definition _abbrev_grid_qubit (qubit : GridQubit) : string :=
  str (row qubit) +:+ "_" +:+ str (col qubit).

Definition fn (self : ReadoutScanTask) : string :=
  let n_shots := _abbrev_n_shots (n_shots self) in
  let qubit := _abbrev_grid_qubit (qubit self) in
  dataset_id self +:+ "/" +:+
  device_name self +:+ "/" +:+
  "q-" +:+ qubit +:+ "/" +:+
  "ry_scan_" +:+ str (resolution_factor self) +:+ "_" +:+ n_shots.

End ReadoutScan.

(** ** Vocabulary of the specification *)

(** How often identifier [c] occurs in the sequence. *)
Definition occurrences (c : Z) (s : list Z) : nat :=
  length (filter (λ x, x = c) s).

(** A well-formed paintshop sequence: every identifier appears exactly
    twice. *)
Definition each_twice (s : list Z) : Prop :=
  Forall (λ c, occurrences c s = 2%nat) s.

#[global] Instance each_twice_dec s : Decision (each_twice s).
Proof. unfold each_twice. apply _. Defined.

(** Occurrence status of position [i]: [true] when the identifier at [i]
    has already appeared at an earlier position (a second occurrence),
    [false] for a first occurrence. *)
Definition seen_before (s : list Z) (i : nat) : bool :=
  match s !! i with
  | Some c => bool_decide (c ∈ take i s)
  | None => false
  end.

(** The sign the documentation prescribes for the adjacent pair
    [(i, i+1)]: ferromagnetic when both positions have the same occurrence
    status, antiferromagnetic otherwise. *)
Definition prescribed_sign (s : list Z) (i : nat) : Z :=
  if Bool.eqb (seen_before s i) (seen_before s (S i))
  then ferromagnetic else antiferromagnetic.

(** Number of immediately-adjacent equal elements. *)
Fixpoint adjacent_equal (s : list Z) : nat :=
  match s with
  | a :: (b :: _) as t =>
      ((if decide (a = b) then 1 else 0) + adjacent_equal t)%nat
  | _ => 0%nat
  end.

(** Number of adjacent position pairs whose identifiers differ. *)
Fixpoint adjacent_differ (s : list Z) : nat :=
  match s with
  | a :: (b :: _) as t =>
      ((if decide (a = b) then 0 else 1) + adjacent_differ t)%nat
  | _ => 0%nat
  end.

(** What position pair [(i, i+1)] of [s] contributes when its sign is
    [sg]: nothing for equal identifiers, one triple otherwise. *)
Definition contribution (s : list Z) (i : nat) (sg : Z) : list interaction :=
  match s !! i, s !! S i with
  | Some a, Some b => if decide (a = b) then [] else [(a, b, sg)]
  | _, _ => []
  end.

Definition is_sign (z : Z) : Prop := z = 1 ∨ z = -1.

(** Position [i] directly follows its own partner: [s[i-1] = s[i]]. *)
Definition after_adjacent_pair (s : list Z) (i : nat) : bool :=
  match i with
  | O => false
  | S j => bool_decide (s !! j = s !! i)
  end.

(** The identifiers the loop of [spin_glass] has added to
    [appeared_already] once it has been through all adjacent pairs of [s]:
    the first components of the pairs that were not skipped. *)
Fixpoint added (s : list Z) : gset Z :=
  match s with
  | a :: (b :: _) as t => (if decide (a = b) then ∅ else {[a]}) ∪ added t
  | _ => ∅
  end.

(** [c] is a valid index into [paint_bitstring]. *)
Definition valid_index (paint_bitstring : list Z) (c : Z) : Prop :=
  - Z.of_nat (length paint_bitstring) ≤ c < Z.of_nat (length paint_bitstring).

(** The colour of position [i] of the car sequence: [paint_bitstring[c]]
    for the first occurrence of identifier [c], its Boolean negation for
    every later occurrence. *)
Definition derived_color (paint_bitstring car_sequence : list Z) (i : nat)
  : option color :=
  c ← car_sequence !! i;
  b ← py_getitem paint_bitstring c;
  Some (if decide (c ∈ take i car_sequence)
        then BoolColor (bool_decide (b = 0)) else IntColor b).

(** Positions [i] and [i+1] both exist and carry different colours. *)
Definition differs_at (colors : list color) (i : nat) : Prop :=
  ∃ color0 color1,
    colors !! i = Some color0 ∧ colors !! S i = Some color1 ∧
    int_value color0 ≠ int_value color1.

#[global] Instance differs_at_dec colors i : Decision (differs_at colors i).
Proof.
  unfold differs_at.
  destruct (colors !! i) as [c0|]; [|right; by intros (?&?&?&?)].
  destruct (colors !! S i) as [c1|]; [|right; by intros (?&?&?&?&?)].
  destruct (decide (int_value c0 = int_value c1)) as [Heq|Hne].
  - right. intros (?&?&[= <-]&[= <-]&?). done.
  - left. eauto.
Defined.

(** Number of adjacent position pairs with differing colours. *)
Definition changes (colors : list color) : nat :=
  length (filter (differs_at colors) (seq 0 (length colors - 1))).

(** ** Vocabulary of the spin glass *)

(** A colour 0 or 1, as the measurements give it. *)
Definition is_bit (b : Z) : Prop := b = 0 ∨ b = 1.

(** The spin of a colour: +1 for 0, -1 for 1. *)
Definition spin (b : Z) : Z := 1 - 2 * b.

(** The Ising term of one interaction under a colouring of the first
    cars: sign times the two spins. *)
Definition ising_term (paint_bitstring : list Z) (t : interaction) : option Z :=
  b0 ← py_getitem paint_bitstring t.1.1;
  b1 ← py_getitem paint_bitstring t.1.2;
  Some (t.2 * spin b0 * spin b1).

(** The Ising energy of a list of interactions. *)
Fixpoint ising_energy (paint_bitstring : list Z) (ts : list interaction)
  : option Z :=
  match ts with
  | [] => Some 0
  | t :: ts =>
      e ← ising_term paint_bitstring t;
      es ← ising_energy paint_bitstring ts;
      Some (e + es)
  end.

(** The interaction the documentation prescribes for the pair
    [(i, i+1)]. *)
Definition pair_at (s : list Z) (i : nat) : option interaction :=
  a ← s !! i; b ← s !! S i; Some (a, b, prescribed_sign s i).

(** ** Vocabulary of file names *)

(** Every character of the string satisfies [P]. *)
Fixpoint all_chars (P : ascii → bool) (s : string) : bool :=
  match s with
  | EmptyString => true
  | String c s => P c && all_chars P s
  end.

(** The characters of a printed integer. *)
Definition numeric (c : ascii) : bool :=
  bool_decide (c ∈ ["-"; "0"; "1"; "2"; "3"; "4"; "5"; "6"; "7"; "8"; "9"]%char).

(** Any character but the path separator. *)
Definition no_slash (c : ascii) : bool := bool_decide (c ≠ "/"%char).

(** ** Proof automation *)

(** Two steps from one state read the same cells: equal the values read,
    and close the case when the two reads disagree. *)
Ltac same_reads :=
  repeat match goal with
    | Ha : ?x = Some _, Hb : ?x = Some _ |- _ =>
        rewrite Ha in Hb; injection Hb as <-
    | Ha : ?x = Some _, Hb : ?x = None |- _ => congruence
    | Ha : ?x = Some _, Hb : ?x = None ∨ _ |- _ =>
        destruct Hb as [Hb|Hb]; congruence
    | Ha : ?x = Some _, Hb : _ ∨ ?x = None |- _ =>
        destruct Hb as [Hb|Hb]; congruence
    | Ha : ?x = true, Hb : ?x = false |- _ => congruence
    end.

(** * Properties *)

(** ** Adjacent pairs *)

Lemma adjacent_pairs_cons {A} (a b : A) (t : list A) :
  adjacent_pairs (a :: b :: t) = (a, b) :: adjacent_pairs (b :: t).
Proof. reflexivity. Qed.

Lemma adjacent_pairs_length {A} (s : list A) :
  length (adjacent_pairs s) = (length s - 1)%nat.
Proof.
  unfold adjacent_pairs, py_tail.
  rewrite length_zip_with, length_drop. lia.
Qed.

Lemma adjacent_pairs_lookup {A} (s : list A) (i : nat) (a b : A) :
  adjacent_pairs s !! i = Some (a, b) ↔ s !! i = Some a ∧ s !! S i = Some b.
Proof.
  unfold adjacent_pairs, py_tail. rewrite lookup_zip_with_Some.
  rewrite lookup_drop. simpl. split.
  - intros (x & y & [= -> ->] & Hx & Hy). done.
  - intros [Hx Hy]. exists a, b. done.
Qed.

(** ** The loop of [spin_glass] *)

Lemma body_skip seen a : body seen (a, a) = (seen, None).
Proof. unfold body. by rewrite decide_True. Qed.

Lemma body_yield seen a b :
  a ≠ b →
  ∃ sg, is_sign sg ∧ body seen (a, b) = (seen ∪ {[a]}, Some (a, b, sg)).
Proof.
  intros Hab. unfold body, is_sign, ferromagnetic, antiferromagnetic.
  rewrite decide_False by done.
  repeat case_decide; eauto.
Qed.

Lemma loop_length seen pairs : length (loop seen pairs) = length pairs.
Proof.
  revert seen. induction pairs as [|p pairs IH]; intros seen; [done|].
  simpl. destruct (body seen p) as [seen' y]. simpl. by rewrite IH.
Qed.

Lemma loop_adjacent_cons seen a b t :
  loop seen (adjacent_pairs (a :: b :: t)) =
  (body seen (a, b)).2 :: loop (body seen (a, b)).1 (adjacent_pairs (b :: t)).
Proof.
  rewrite adjacent_pairs_cons. cbn [loop].
  by destruct (body seen (a, b)).
Qed.

Lemma loop_count seen s :
  length (omap id (loop seen (adjacent_pairs s))) = adjacent_differ s.
Proof.
  revert seen. induction s as [|a [|b t] IH]; intros seen; [done..|].
  rewrite loop_adjacent_cons. cbn [adjacent_differ].
  destruct (decide (a = b)) as [->|Hab].
  - rewrite body_skip. simpl. apply IH.
  - destruct (body_yield seen a b Hab) as (sg & _ & ->). simpl.
    f_equal. apply IH.
Qed.

Lemma adjacent_equal_differ s :
  (adjacent_equal s + adjacent_differ s = length s - 1)%nat.
Proof.
  induction s as [|a [|b t] IH]; [done..|].
  cbn [adjacent_equal adjacent_differ]. simpl in *.
  case_decide; lia.
Qed.

Lemma adjacent_differ_zero s :
  (∀ i a b, s !! i = Some a → s !! S i = Some b → a = b) →
  adjacent_differ s = 0%nat.
Proof.
  induction s as [|a0 [|b0 t] IH]; intros Heq; [done..|].
  cbn [adjacent_differ]. rewrite decide_True by (by apply (Heq 0%nat)).
  apply IH. intros i. apply (Heq (S i)).
Qed.

Lemma spin_glass_length s : length (spin_glass s) = adjacent_differ s.
Proof. apply loop_count. Qed.

Lemma loop_contributions seen s :
  ∃ signs : list Z,
    length signs = (length s - 1)%nat ∧
    Forall is_sign signs ∧
    omap id (loop seen (adjacent_pairs s)) = concat (imap (contribution s) signs).
Proof.
  revert seen. induction s as [|a [|b t] IH]; intros seen.
  - exists []. done.
  - exists []. done.
  - rewrite loop_adjacent_cons.
    assert (∃ sg, is_sign sg ∧
              (body seen (a, b)).2 =
                (if decide (a = b) then None else Some (a, b, sg)))
      as (sg & Hsg & Hy).
    { destruct (decide (a = b)) as [->|Hab].
      - exists 1. rewrite body_skip. split; [by left|done].
      - destruct (body_yield seen a b Hab) as (sg & ? & ->). eauto. }
    destruct (IH (body seen (a, b)).1) as (signs & Hlen & Hsigns & Hout).
    exists (sg :: signs). split_and!.
    + simpl in *. lia.
    + by constructor.
    + rewrite Hy. cbn [imap concat].
      replace (imap (contribution (a :: b :: t) ∘ S) signs)
        with (imap (contribution (b :: t)) signs) by (by apply imap_ext).
      rewrite <-Hout. unfold contribution at 1. simpl.
      by destruct (decide (a = b)).
Qed.

(** ** Properties of [spin_glass] *)

(** C3. On [[0,1,0,1]] the generator yields three triples, one per adjacent
    position pair: ferromagnetic for positions 0-1 (both first occurrences),
    antiferromagnetic for positions 1-2, ferromagnetic for positions 2-3
    (both second occurrences); with the constants of the source this is
    [(0,1,-1)], [(1,0,1)], [(0,1,-1)]. *)
Theorem spin_glass_0101 :
  spin_glass [0; 1; 0; 1] =
    [(0, 1, ferromagnetic); (1, 0, antiferromagnetic); (0, 1, ferromagnetic)]
  ∧ spin_glass [0; 1; 0; 1] = [(0, 1, -1); (1, 0, 1); (0, 1, -1)]
  ∧ emissions [0; 1; 0; 1] =
      [Some (0, 1, -1); Some (1, 0, 1); Some (0, 1, -1)]
  ∧ seen_before [0; 1; 0; 1] <$> [0; 1; 2; 3]%nat = [false; false; true; true].
Proof. by vm_compute. Qed.

(** C7. The output is the in-order concatenation, over the adjacent position
    pairs [(i, i+1)], of nothing when [s[i] = s[i+1]] and of exactly one
    triple [(s[i], s[i+1], sign)] with [sign] in {+1, -1} otherwise; so a
    singleton sequence, and any sequence all of whose adjacent pairs are
    equal (such as [[0,0]]), yields no interaction. *)
Theorem spin_glass_in_order (s : list Z) :
  (∃ signs : list Z,
      length signs = (length s - 1)%nat ∧
      Forall is_sign signs ∧
      spin_glass s = concat (imap (contribution s) signs))
  ∧ Forall (λ t, t.1.1 ≠ t.1.2 ∧ is_sign t.2) (spin_glass s)
  ∧ (length s = 1%nat → spin_glass s = [])
  ∧ ((∀ i a b, s !! i = Some a → s !! S i = Some b → a = b) →
     spin_glass s = [])
  ∧ spin_glass [0; 0] = [].
Proof.
  destruct (loop_contributions ∅ s) as (signs & Hlen & Hsigns & Hout).
  fold (emissions s) in Hout. fold (spin_glass s) in Hout.
  split_and!.
  - eauto.
  - rewrite Hout. apply Forall_concat, Forall_lookup.
    intros i l Hl. apply list_lookup_imap_Some in Hl as (sg & Hsg & ->).
    unfold contribution.
    destruct (s !! i) as [a|]; [|done]. destruct (s !! S i) as [b|]; [|done].
    case_decide; [done|]. apply Forall_singleton. split; [done|].
    by eapply Forall_lookup_1.
  - intros H1. apply length_zero_iff_nil.
    rewrite spin_glass_length. pose proof (adjacent_equal_differ s). lia.
  - intros Heq. apply length_zero_iff_nil. rewrite spin_glass_length.
    by apply adjacent_differ_zero.
  - by vm_compute.
Qed.

Lemma spin_glass_in_order_witness :
  spin_glass [7] = [] ∧ spin_glass [3; 3; 3] = [].
Proof.
  split.
  - destruct (spin_glass_in_order [7]) as (_ & _ & Hone & _).
    apply Hone. reflexivity.
  - destruct (spin_glass_in_order [3; 3; 3]) as (_ & _ & _ & Hequal & _).
    apply Hequal. intros [|[|[|i]]] a b; simpl; congruence.
Defined.

(** C2, as stated, fails on the empty sequence: no triple is yielded, while
    (length - 1) minus the number of adjacent equal elements is -1, and
    2n - 1 is -1 for n = 0. *)
Lemma spin_glass_count_empty :
  each_twice []
  ∧ Z.of_nat (length (spin_glass [])) = 0
  ∧ Z.of_nat (length (spin_glass [])) ≠
      Z.of_nat (length (@nil Z)) - 1 - Z.of_nat (adjacent_equal [])
  ∧ ¬ (∀ (s : list Z) (n : Z),
          Z.of_nat (length s) = 2 * n → adjacent_equal s = 0%nat →
          Z.of_nat (length (spin_glass s)) = 2 * n - 1).
Proof.
  split_and!.
  - constructor.
  - reflexivity.
  - by vm_compute.
  - intros H. specialize (H [] 0 eq_refl eq_refl). by vm_compute in H.
Qed.

(** C2, amended. For every sequence the number of triples equals the number
    of adjacent position pairs whose identifiers differ; for every non-empty
    sequence this is (length - 1) minus the number of immediately-adjacent
    equal elements; a sequence of length 2n, n >= 1, without adjacent
    duplicates yields exactly 2n - 1 triples. *)
Theorem spin_glass_interaction_count (s : list Z) :
  length (spin_glass s) = adjacent_differ s
  ∧ (s ≠ [] →
     Z.of_nat (length (spin_glass s)) =
       Z.of_nat (length s) - 1 - Z.of_nat (adjacent_equal s))
  ∧ (∀ n : Z, 1 ≤ n →
       Z.of_nat (length s) = 2 * n → adjacent_equal s = 0%nat →
       Z.of_nat (length (spin_glass s)) = 2 * n - 1).
Proof.
  pose proof (adjacent_equal_differ s) as Hsum.
  rewrite spin_glass_length. split_and!; [done| |].
  - intros Hs. assert (length s ≠ 0%nat) by (by destruct s). lia.
  - intros n Hn Hlen H0. lia.
Qed.

Lemma spin_glass_interaction_count_witness :
  [0; 1; 2; 2; 0; 1] ≠ []
  ∧ Z.of_nat (length (spin_glass [0; 1; 2; 2; 0; 1])) = 6 - 1 - 1
  ∧ Z.of_nat (length (spin_glass [0; 1; 0; 1])) = 2 * 2 - 1.
Proof.
  split_and!.
  - discriminate.
  - destruct (spin_glass_interaction_count [0; 1; 2; 2; 0; 1]) as (_ & H & _).
    apply H. discriminate.
  - destruct (spin_glass_interaction_count [0; 1; 0; 1]) as (_ & _ & H).
    apply (H 2); [lia|reflexivity|reflexivity].
Defined.

(** ** The loops of [color_changes] *)

Lemma py_getitem_valid {A} (xs : list A) (c : Z) :
  - Z.of_nat (length xs) ≤ c < Z.of_nat (length xs) → is_Some (py_getitem xs c).
Proof.
  intros Hc. unfold py_getitem. cbv zeta.
  repeat case_decide; try lia; apply lookup_lt_is_Some; lia.
Qed.

Lemma py_ne_true c0 c1 : py_ne c0 c1 = true ↔ int_value c0 ≠ int_value c1.
Proof. unfold py_ne. rewrite negb_true_iff. apply Z.eqb_neq. Qed.

Lemma count_shift n pairs : count n pairs = n + count 0 pairs.
Proof.
  revert n. induction pairs as [|[c0 c1] pairs IH]; intros n; simpl; [lia|].
  destruct (py_ne c0 c1); [|apply IH].
  rewrite (IH (n + 1)), (IH (0 + 1)). lia.
Qed.

Lemma count_bounds pairs : 0 ≤ count 0 pairs ≤ Z.of_nat (length pairs).
Proof.
  induction pairs as [|[c0 c1] pairs IH]; simpl; [lia|].
  destruct (py_ne c0 c1); [rewrite count_shift|]; lia.
Qed.

Lemma filter_seq_S (P : nat → Prop) `{!∀ i, Decision (P i)} j n :
  length (filter P (seq (S j) n)) = length (filter (λ i, P (S i)) (seq j n)).
Proof.
  revert j. induction n as [|n IH]; intros j; [done|].
  simpl. rewrite !filter_cons.
  destruct (decide (P (S j))); simpl; by rewrite IH.
Qed.

Lemma changes_cons c0 c1 t :
  changes (c0 :: c1 :: t) =
  ((if py_ne c0 c1 then 1 else 0) + changes (c1 :: t))%nat.
Proof.
  unfold changes. cbn [length]. rewrite !Nat.sub_succ, !Nat.sub_0_r.
  cbn [seq].
  assert (length (filter (differs_at (c0 :: c1 :: t)) (seq 1 (length t))) =
          length (filter (differs_at (c1 :: t)) (seq 0 (length t)))) as Htl.
  { by rewrite filter_seq_S. }
  rewrite filter_cons.
  destruct (py_ne c0 c1) eqn:Hne.
  - rewrite decide_True; [simpl; by rewrite Htl|].
    exists c0, c1. by apply py_ne_true in Hne.
  - rewrite decide_False; [done|].
    intros (? & ? & [= <-] & [= <-] & H%py_ne_true). congruence.
Qed.

Lemma count_changes colors :
  count 0 (adjacent_pairs colors) = Z.of_nat (changes colors).
Proof.
  induction colors as [|c0 [|c1 t] IH]; [done..|].
  rewrite adjacent_pairs_cons, changes_cons. cbn [count].
  destruct (py_ne c0 c1); [rewrite count_shift|]; rewrite IH; lia.
Qed.

Lemma py_not_decide b : py_not b = bool_decide (b = 0).
Proof.
  unfold py_not. destruct (Z.eqb_spec b 0).
  - by rewrite bool_decide_eq_true_2.
  - by rewrite bool_decide_eq_false_2.
Qed.

Lemma derived_color_here pb pre c rest b :
  py_getitem pb c = Some b →
  derived_color pb (pre ++ c :: rest) (length pre) =
    Some (if decide (c ∈ pre) then BoolColor (py_not b) else IntColor b).
Proof.
  intros Hb. unfold derived_color.
  rewrite list_lookup_middle by done. simpl. rewrite Hb. simpl.
  rewrite take_app_length. by rewrite py_not_decide.
Qed.

Lemma paint_spec pb cars :
  ∀ pre painted colors,
    (∀ x, x ∈ painted ↔ x ∈ pre) →
    Forall (valid_index pb) cars →
    ∃ colors',
      paint pb painted colors cars = Some (colors ++ colors') ∧
      length colors' = length cars ∧
      ∀ i, (i < length cars)%nat →
           colors' !! i = derived_color pb (pre ++ cars) (length pre + i).
Proof.
  induction cars as [|c rest IH]; intros pre painted colors Hpainted Hvalid.
  { exists []. rewrite app_nil_r. split_and!; [done..|]. simpl. lia. }
  apply Forall_cons in Hvalid as [Hc Hrest].
  destruct (py_getitem_valid pb c Hc) as [b Hb].
  pose proof (derived_color_here pb pre c rest b Hb) as Hhere.
  cbn [paint]. rewrite Hb. cbn [mbind option_bind].
  set (x := if decide (c ∈ pre) then BoolColor (py_not b) else IntColor b) in *.
  assert (∃ painted',
    (∀ y, y ∈ painted' ↔ y ∈ pre ++ [c]) ∧
    (if decide (c ∈ painted)
     then paint pb painted (colors ++ [BoolColor (py_not b)]) rest
     else paint pb (painted ∪ {[c]}) (colors ++ [IntColor b]) rest) =
    paint pb painted' (colors ++ [x]) rest) as (painted' & Hpainted' & ->).
  { subst x. destruct (decide (c ∈ painted)) as [Hin|Hnin].
    - exists painted. rewrite decide_True by (by apply Hpainted). split; [|done].
      intros y. rewrite elem_of_app, list_elem_of_singleton, <-Hpainted.
      split; [tauto|]. intros [?| ->]; done.
    - exists (painted ∪ {[c]}).
      rewrite decide_False by (by rewrite <-Hpainted). split; [|done].
      intros y. rewrite elem_of_app, list_elem_of_singleton, <-Hpainted.
      rewrite elem_of_union, elem_of_singleton. done. }
  destruct (IH (pre ++ [c]) painted' (colors ++ [x]) Hpainted' Hrest)
    as (colors' & Hpaint & Hlen & Hcolors).
  exists (x :: colors'). split_and!.
  - rewrite Hpaint. by rewrite <-app_assoc.
  - simpl. by rewrite Hlen.
  - intros [|i] Hi.
    + rewrite Nat.add_0_r. by rewrite Hhere.
    + simpl in Hi. simpl. rewrite Hcolors by lia.
      rewrite <-app_assoc, length_app. simpl.
      by replace (length pre + 1 + i)%nat with (length pre + S i)%nat by lia.
Qed.

Lemma color_changes_spec pb cs :
  Forall (valid_index pb) cs →
  ∃ colors,
    length colors = length cs ∧
    (∀ i, colors !! i = derived_color pb cs i) ∧
    paint pb ∅ [] cs = Some colors ∧
    color_changes pb cs = Some (Z.of_nat (changes colors)).
Proof.
  intros Hvalid.
  destruct (paint_spec pb cs [] ∅ [] ltac:(set_solver) Hvalid)
    as (colors & Hpaint & Hlen & Hcolors).
  simpl in Hpaint, Hcolors.
  exists colors. split_and!; [done| |done|].
  - intros i. destruct (decide (i < length cs)%nat) as [Hi|Hi]; [by apply Hcolors|].
    rewrite lookup_ge_None_2 by lia.
    unfold derived_color. by rewrite lookup_ge_None_2 by lia.
  - unfold color_changes. rewrite Hpaint. simpl. by rewrite count_changes.
Qed.

(** ** Properties of [color_changes] *)

(** C6. For valid indices, [color_changes] returns the number of adjacent
    position pairs with differing colours in the derived colour sequence,
    in which the first occurrence of identifier [c] has colour
    [paint_bitstring[c]] and every later occurrence its Boolean negation;
    for the car sequence [[0,1,0,1]] and first-car colours [[0,1]] the
    result is 2. *)
Theorem color_changes_counts (paint_bitstring car_sequence : list Z) :
  Forall (valid_index paint_bitstring) car_sequence →
  (∃ colors : list color,
      length colors = length car_sequence ∧
      (∀ i, colors !! i = derived_color paint_bitstring car_sequence i) ∧
      color_changes paint_bitstring car_sequence =
        Some (Z.of_nat (changes colors)))
  ∧ color_changes [0; 1] [0; 1; 0; 1] = Some 2.
Proof.
  intros Hvalid. split; [|by vm_compute].
  destruct (color_changes_spec _ _ Hvalid) as (colors & ? & ? & _ & ?).
  eauto.
Qed.

Lemma color_changes_counts_witness :
  Forall (valid_index [1; 0; 5]) [2; 0; -3; 1; 1; 2]
  ∧ ∃ colors : list color,
      (∀ i, colors !! i = derived_color [1; 0; 5] [2; 0; -3; 1; 1; 2] i) ∧
      color_changes [1; 0; 5] [2; 0; -3; 1; 1; 2] =
        Some (Z.of_nat (changes colors)).
Proof.
  assert (Forall (valid_index [1; 0; 5]) [2; 0; -3; 1; 1; 2]) as Hvalid.
  { unfold valid_index. repeat constructor; simpl; lia. }
  split; [exact Hvalid|].
  destruct (color_changes_counts [1; 0; 5] [2; 0; -3; 1; 1; 2] Hvalid)
    as [(colors & _ & Hcolors & Hresult) _].
  exists colors. split; assumption.
Defined.

(** C10. For valid indices, the value returned by [color_changes] lies
    between 0 and max(0, length of the car sequence - 1); an empty or
    single-element car sequence yields 0. *)
Theorem color_changes_bounds (paint_bitstring car_sequence : list Z) :
  Forall (valid_index paint_bitstring) car_sequence →
  ∃ n : Z,
    color_changes paint_bitstring car_sequence = Some n ∧
    0 ≤ n ≤ Z.max 0 (Z.of_nat (length car_sequence) - 1) ∧
    ((length car_sequence ≤ 1)%nat → n = 0).
Proof.
  intros Hvalid.
  destruct (color_changes_spec _ _ Hvalid) as (colors & Hlen & _ & Hpaint & _).
  unfold color_changes. rewrite Hpaint. simpl.
  eexists. split; [done|].
  pose proof (count_bounds (adjacent_pairs colors)) as Hb.
  rewrite adjacent_pairs_length, Hlen in Hb. lia.
Qed.

Lemma color_changes_bounds_witness :
  Forall (valid_index [1; 0]) [0; 1; 1; 0]
  ∧ ∃ n : Z, color_changes [1; 0] [0; 1; 1; 0] = Some n ∧ 0 ≤ n ≤ 3.
Proof.
  assert (Forall (valid_index [1; 0]) [0; 1; 1; 0]) as Hvalid.
  { unfold valid_index. repeat constructor; simpl; lia. }
  split; [exact Hvalid|].
  destruct (color_changes_bounds [1; 0] [0; 1; 1; 0] Hvalid)
    as (n & Hn & Hbound & _).
  exists n. split; [exact Hn|]. simpl in Hbound. lia.
Defined.

(** ** The two machines *)

(** *** [spin_glass] *)

Section spin_glass_machine.
Import SpinGlassMachine.

Lemma sg_step_deterministic σ σ1 σ2 : step σ σ1 → step σ σ2 → σ1 = σ2.
Proof.
  intros H1 H2. destruct H1; inversion H2; subst; same_reads; done.
Qed.

Lemma sg_step_input σ σ' :
  step σ σ' → car_sequence σ' = car_sequence σ ∧ slice σ' = slice σ.
Proof. by intros []. Qed.

Lemma sg_step_live σ σ' : step σ σ' → exhausted σ = false.
Proof. by intros []. Qed.

Lemma sg_pending_next s sl i seen car0 car1 :
  s !! i = Some car0 → sl !! i = Some car1 →
  omap id (loop seen (drop i (zip s sl))) =
  from_option (λ t, [t]) [] (body seen (car0, car1)).2 ++
  omap id (loop (body seen (car0, car1)).1 (drop (S i) (zip s sl))).
Proof.
  intros H0 H1.
  assert (zip s sl !! i = Some (car0, car1)) as Hp.
  { apply lookup_zip_with_Some. eauto. }
  rewrite (drop_S _ _ _ Hp). cbn [loop].
  destruct (body seen (car0, car1)) as [seen' [t|]]; done.
Qed.

Lemma sg_step_pending σ σ' :
  step σ σ' → yielded σ' ++ pending σ' = yielded σ ++ pending σ.
Proof.
  intros Hstep. destruct Hstep as
    [s sl i seen out car0 car1 H0 H1 Heq
    |s sl i seen out car0 car1 H0 H1 Hne Hin0 Hin1
    |s sl i seen out car0 car1 H0 H1 Hne Hin0 Hin1
    |s sl i seen out car0 car1 H0 H1 Hne Hin0 Hin1
    |s sl i seen out car0 car1 H0 H1 Hne Hin0 Hin1
    |s sl i seen out Hend];
    unfold pending; simpl;
    try (rewrite (sg_pending_next s sl i seen car0 car1 H0 H1); unfold body).
  - rewrite decide_True by done. done.
  - rewrite decide_False, !decide_True by done. by rewrite <-app_assoc.
  - rewrite decide_False, decide_True, decide_False by done.
    by rewrite <-app_assoc.
  - rewrite !decide_False, decide_True by done. by rewrite <-app_assoc.
  - rewrite !decide_False by done. by rewrite <-app_assoc.
  - rewrite drop_ge; [done|].
    rewrite length_zip_with.
    destruct Hend as [H%lookup_ge_None|H%lookup_ge_None]; lia.
Qed.

Lemma sg_step_exists s sl i seen out :
  ∃ σ', step (State s sl i seen out false) σ'.
Proof.
  destruct (s !! i) as [car0|] eqn:H0; [|eexists; apply step_stop; eauto].
  destruct (sl !! i) as [car1|] eqn:H1; [|eexists; apply step_stop; eauto].
  destruct (decide (car0 = car1)); [eexists; by eapply step_continue|].
  destruct (decide (car0 ∈ seen)), (decide (car1 ∈ seen ∪ {[car0]}));
    eexists;
    [by eapply step_second_second|by eapply step_second_first
    |by eapply step_first_second|by eapply step_first_first].
Qed.

Lemma sg_terminates (fuel : nat) s sl i seen out :
  (length s - i < fuel)%nat →
  ∃ σ, rtc step (State s sl i seen out false) σ ∧ exhausted σ = true.
Proof.
  revert i seen out. induction fuel as [|fuel IH]; intros i seen out Hfuel;
    [lia|].
  destruct (sg_step_exists s sl i seen out) as [σ' Hstep].
  inversion Hstep; subst;
    try (match goal with H : s !! i = Some _ |- _ =>
           apply lookup_lt_Some in H end;
         edestruct IH as (σ & Hrun & Hdone);
         [|exists σ; split; [eapply rtc_l; [exact Hstep|exact Hrun]|exact Hdone]];
         lia).
  eexists. split; [eapply rtc_once; exact Hstep|done].
Qed.

Lemma sg_rtc_pending σ σ' :
  rtc step σ σ' →
  yielded σ' ++ pending σ' = yielded σ ++ pending σ ∧
  car_sequence σ' = car_sequence σ.
Proof.
  induction 1 as [|σ1 σ2 σ3 Hstep _ [IH1 IH2]]; [done|].
  rewrite IH1, IH2. split; [by apply sg_step_pending|by apply sg_step_input].
Qed.

Lemma sg_rtc_confluent σ σ1 σ2 :
  rtc step σ σ1 → rtc step σ σ2 →
  exhausted σ1 = true → exhausted σ2 = true → σ1 = σ2.
Proof.
  intros H1. revert σ2. induction H1 as [σ|σ σ' σ1 Hstep _ IH];
    intros σ2 H2 Hd1 Hd2.
  - destruct H2 as [|σ σ' σ2 Hstep _]; [done|].
    apply sg_step_live in Hstep. congruence.
  - destruct H2 as [|σ σ'' σ2 Hstep' H2].
    + apply sg_step_live in Hstep. congruence.
    + rewrite <-(sg_step_deterministic _ _ _ Hstep Hstep') in H2. by apply IH.
Qed.

Lemma sg_run s :
  ∃ σ, runs_to s σ ∧ (∀ σ', runs_to s σ' → σ' = σ) ∧
       yielded σ = spin_glass s ∧ car_sequence σ = s.
Proof.
  destruct (sg_terminates (S (length s)) s (py_tail s) 0 ∅ []) as (σ & Hrun & Hdone);
    [lia|].
  exists σ. split_and!.
  - done.
  - intros σ' [Hrun' Hdone']. by eapply sg_rtc_confluent.
  - apply sg_rtc_pending in Hrun as [Hout _].
    unfold pending in Hout. rewrite Hdone in Hout. simpl in Hout.
    by rewrite app_nil_r in Hout.
  - by apply sg_rtc_pending in Hrun as [_ ?].
Qed.

End spin_glass_machine.

(** *** [color_changes] *)

Section color_changes_machine.
Import ColorChangesMachine.

Lemma cc_step_deterministic σ σ1 σ2 : step σ σ1 → step σ σ2 → σ1 = σ2.
Proof.
  intros H1 H2. destruct H1; inversion H2; subst; same_reads; done.
Qed.

Lemma cc_step_input σ σ' :
  step σ σ' →
  paint_bitstring σ' = paint_bitstring σ ∧ car_sequence σ' = car_sequence σ.
Proof. by intros []. Qed.

Lemma cc_step_live σ σ' : step σ σ' → finished σ = false.
Proof. by intros []. Qed.

Lemma cc_step_pending σ σ' : step σ σ' → pending σ' = pending σ.
Proof.
  intros Hstep. destruct Hstep as
    [pb cs colors painted n i car b Hcar Hin Hb
    |pb cs colors painted n i car b Hcar Hin Hb
    |pb cs colors painted n i car Hcar Hb
    |pb cs colors painted n i Hend
    |pb cs colors painted n tl i c0 c1 H0 H1 Hne
    |pb cs colors painted n tl i c0 c1 H0 H1 Hne
    |pb cs colors painted n tl i Hend];
    unfold pending; simpl.
  - rewrite (drop_S _ _ _ Hcar). cbn [paint].
    by rewrite decide_True, Hb by done.
  - rewrite (drop_S _ _ _ Hcar). cbn [paint].
    by rewrite decide_False, Hb by done.
  - rewrite (drop_S _ _ _ Hcar). cbn [paint]. rewrite Hb.
    by case_decide.
  - apply lookup_ge_None in Hend. rewrite (drop_ge cs i) by done. reflexivity.
  - assert (zip colors tl !! i = Some (c0, c1)) as Hp
      by (apply lookup_zip_with_Some; eauto).
    rewrite (drop_S _ _ _ Hp). cbn [count]. by rewrite Hne.
  - assert (zip colors tl !! i = Some (c0, c1)) as Hp
      by (apply lookup_zip_with_Some; eauto).
    rewrite (drop_S _ _ _ Hp). cbn [count]. by rewrite Hne.
  - rewrite drop_ge; [done|]. rewrite length_zip_with.
    destruct Hend as [H%lookup_ge_None|H%lookup_ge_None]; lia.
Qed.

Lemma cc_counting_terminates (fuel : nat) pb cs colors painted n tl i :
  (length colors - i < fuel)%nat →
  ∃ σ, rtc step (State pb cs colors painted n (Counting tl i)) σ ∧
       finished σ = true.
Proof.
  revert n i. induction fuel as [|fuel IH]; intros n i Hfuel; [lia|].
  destruct (colors !! i) as [c0|] eqn:H0; cycle 1.
  { eexists. split; [eapply rtc_once, step_count_done; eauto|done]. }
  destruct (tl !! i) as [c1|] eqn:H1; cycle 1.
  { eexists. split; [eapply rtc_once, step_count_done; eauto|done]. }
  apply lookup_lt_Some in H0 as Hlt.
  destruct (py_ne c0 c1) eqn:Hne.
  - destruct (IH (n + 1) (S i)) as (σ & Hrun & Hdone); [lia|].
    exists σ. split; [|done].
    eapply rtc_l; [by eapply step_count_change|done].
  - destruct (IH n (S i)) as (σ & Hrun & Hdone); [lia|].
    exists σ. split; [|done].
    eapply rtc_l; [by eapply step_count_same|done].
Qed.

Lemma cc_painting_terminates (fuel : nat) pb cs colors painted n i :
  (length cs - i < fuel)%nat →
  ∃ σ, rtc step (State pb cs colors painted n (Painting i)) σ ∧
       finished σ = true.
Proof.
  revert colors painted i. induction fuel as [|fuel IH];
    intros colors painted i Hfuel; [lia|].
  destruct (cs !! i) as [car|] eqn:Hcar; cycle 1.
  { destruct (cc_counting_terminates (S (length colors)) pb cs colors painted
                0 (py_tail colors) 0) as (σ & Hrun & Hdone); [lia|].
    exists σ. split; [|done].
    eapply rtc_l; [by eapply step_paint_done|done]. }
  apply lookup_lt_Some in Hcar as Hlt.
  destruct (py_getitem pb car) as [b|] eqn:Hb; cycle 1.
  { eexists. split; [eapply rtc_once; by eapply step_paint_raise|done]. }
  destruct (decide (car ∈ painted)) as [Hin|Hin].
  - edestruct (IH (colors ++ [BoolColor (py_not b)]) painted (S i))
      as (σ & Hrun & Hdone); [lia|].
    exists σ. split; [|done].
    eapply rtc_l; [by eapply step_paint_second|done].
  - edestruct (IH (colors ++ [IntColor b]) (painted ∪ {[car]}) (S i))
      as (σ & Hrun & Hdone); [lia|].
    exists σ. split; [|done].
    eapply rtc_l; [by eapply step_paint_first|done].
Qed.

Lemma cc_rtc_pending σ σ' :
  rtc step σ σ' →
  pending σ' = pending σ ∧
  paint_bitstring σ' = paint_bitstring σ ∧ car_sequence σ' = car_sequence σ.
Proof.
  induction 1 as [|σ1 σ2 σ3 Hstep _ (IH1 & IH2 & IH3)]; [done|].
  rewrite IH1, IH2, IH3. split; [by apply cc_step_pending|by apply cc_step_input].
Qed.

Lemma cc_rtc_confluent σ σ1 σ2 :
  rtc step σ σ1 → rtc step σ σ2 →
  finished σ1 = true → finished σ2 = true → σ1 = σ2.
Proof.
  intros H1. revert σ2. induction H1 as [σ|σ σ' σ1 Hstep _ IH];
    intros σ2 H2 Hd1 Hd2.
  - destruct H2 as [|σ σ' σ2 Hstep _]; [done|].
    apply cc_step_live in Hstep. congruence.
  - destruct H2 as [|σ τ σ2 Hstep' H2].
    + apply cc_step_live in Hstep. congruence.
    + rewrite <-(cc_step_deterministic _ _ _ Hstep Hstep') in H2. by apply IH.
Qed.

Lemma cc_finished_pending σ : finished σ = true → pending σ = outcome σ.
Proof. unfold finished, pending, outcome. by destruct (at_ σ). Qed.

Lemma cc_run pb cs :
  ∃ σ, runs_to pb cs σ ∧ (∀ σ', runs_to pb cs σ' → σ' = σ) ∧
       outcome σ = color_changes pb cs ∧
       paint_bitstring σ = pb ∧ car_sequence σ = cs.
Proof.
  destruct (cc_painting_terminates (S (length cs)) pb cs [] ∅ 0 0)
    as (σ & Hrun & Hdone); [lia|].
  exists σ. apply cc_rtc_pending in Hrun as Hinv.
  destruct Hinv as (Hout & Hpb & Hcs). split_and!; try done.
  - intros σ' [Hrun' Hdone']. by eapply cc_rtc_confluent.
  - by rewrite <-cc_finished_pending, Hout.
Qed.

End color_changes_machine.

(** ** Which sign the loop yields *)

Lemma body_state seen a b :
  (body seen (a, b)).1 = seen ∪ (if decide (a = b) then ∅ else {[a]}).
Proof.
  unfold body. destruct (decide (a = b)); simpl.
  - by rewrite (right_id_L ∅ (∪)).
  - by repeat case_decide.
Qed.

Lemma loop_lookup s :
  ∀ seen i a b,
    s !! i = Some a → s !! S i = Some b →
    loop seen (adjacent_pairs s) !! i =
      Some (body (seen ∪ added (take (S i) s)) (a, b)).2.
Proof.
  induction s as [|a0 [|b0 t] IH]; intros seen i a b Ha Hb; [done| |].
  { by destruct i. }
  rewrite loop_adjacent_cons. destruct i as [|i].
  - simpl in Ha, Hb. simplify_eq. simpl.
    by rewrite (right_id_L ∅ (∪)).
  - simpl in Ha, Hb. cbn [lookup list_lookup].
    rewrite (IH _ i a b Ha Hb). do 3 f_equal.
    rewrite body_state. change (take (S (S i)) (a0 :: b0 :: t))
      with (a0 :: take (S i) (b0 :: t)).
    cbn [take]. cbn [added]. by rewrite (assoc_L (∪)).
Qed.

Lemma elem_of_added x s :
  x ∈ added s ↔ ∃ j y, s !! j = Some x ∧ s !! S j = Some y ∧ x ≠ y.
Proof.
  induction s as [|a [|b t] IH].
  - split; [set_solver|]. by intros (j & y & ? & _).
  - split; [set_solver|]. intros (j & y & _ & Hy & _). by destruct j.
  - cbn [added]. rewrite elem_of_union, IH. split.
    + intros [Hx|(j & y & Hj & Hy & Hne)].
      * destruct (decide (a = b)); [set_solver|].
        apply elem_of_singleton in Hx as ->. by exists 0%nat, b.
      * by exists (S j), y.
    + intros (j & y & Hj & Hy & Hne). destruct j as [|j].
      * simpl in Hj, Hy. simplify_eq. left.
        rewrite decide_False by done. by apply elem_of_singleton.
      * right. by exists j, y.
Qed.

Lemma occurrences_app c l1 l2 :
  occurrences c (l1 ++ l2) = (occurrences c l1 + occurrences c l2)%nat.
Proof. unfold occurrences. by rewrite filter_app, length_app. Qed.

Lemma occurrences_cons_eq c l : occurrences c (c :: l) = S (occurrences c l).
Proof. unfold occurrences. by rewrite filter_cons, decide_True. Qed.

Lemma occurrences_pos c l : c ∈ l → (1 ≤ occurrences c l)%nat.
Proof.
  intros Hc. unfold occurrences.
  assert (c ∈ filter (λ x, x = c) l) as Hin by (by apply list_elem_of_filter).
  destruct (filter (λ x, x = c) l); [by apply not_elem_of_nil in Hin|simpl; lia].
Qed.

Lemma occurrences_split c s i :
  s !! i = Some c →
  occurrences c s =
    (occurrences c (take i s) + 1 + occurrences c (drop (S i) s))%nat.
Proof.
  intros Hi. rewrite <-(take_drop_middle s i c Hi) at 1.
  rewrite occurrences_app, occurrences_cons_eq. lia.
Qed.

Lemma occurrences_three c s j1 j2 j3 :
  s !! j1 = Some c → s !! j2 = Some c → s !! j3 = Some c →
  (j1 < j2 < j3)%nat → (3 ≤ occurrences c s)%nat.
Proof.
  intros H1 H2 H3 Hlt. rewrite (occurrences_split c s j2 H2).
  assert (c ∈ take j2 s) as Hl.
  { apply elem_of_take. exists j1. split; [done|lia]. }
  assert (c ∈ drop (S j2) s) as Hr.
  { apply list_elem_of_lookup. exists (j3 - S j2)%nat.
    rewrite lookup_drop. by replace (S j2 + (j3 - S j2))%nat with j3 by lia. }
  apply occurrences_pos in Hl, Hr. lia.
Qed.

Lemma each_twice_lookup s i c :
  each_twice s → s !! i = Some c → occurrences c s = 2%nat.
Proof. intros Hs Hi. by apply (Forall_lookup_1 _ _ _ _ Hs Hi). Qed.

Lemma each_twice_no_three s c j1 j2 j3 :
  each_twice s →
  s !! j1 = Some c → s !! j2 = Some c → s !! j3 = Some c →
  (j1 < j2 < j3)%nat → False.
Proof.
  intros Hs H1 H2 H3 Hlt.
  pose proof (each_twice_lookup s j1 c Hs H1).
  pose proof (occurrences_three c s j1 j2 j3 H1 H2 H3 Hlt). lia.
Qed.

Lemma after_adjacent_pair_true s i :
  after_adjacent_pair s i = true ↔ ∃ j, i = S j ∧ s !! j = s !! i.
Proof.
  destruct i as [|j]; simpl.
  - split; [done|]. by intros (? & ? & _).
  - rewrite bool_decide_eq_true. split; [by exists j|].
    by intros (? & [= <-] & ?).
Qed.

Section sign_of_a_pair.
Context (s : list Z) (i : nat) (a b : Z).
Hypothesis (Hs : each_twice s).
Hypothesis (Ha : s !! i = Some a) (Hb : s !! S i = Some b) (Hab : a ≠ b).

(** The membership test on [car1] always finds the occurrence status of
    position [i+1]. *)
Lemma car1_status :
  b ∈ added (take (S i) s) ∪ {[a]} ↔ seen_before s (S i) = true.
Proof.
  unfold seen_before. rewrite Hb, bool_decide_eq_true.
  rewrite elem_of_union, elem_of_singleton, elem_of_added, elem_of_take.
  split.
  - intros [(j & y & Hj & Hy & _)|?]; [|congruence].
    apply lookup_lt_Some in Hy as Hlt. rewrite length_take in Hlt.
    exists j. rewrite lookup_take_lt in Hj by lia. split; [done|lia].
  - intros (j & Hj & Hlt). left.
    assert (j ≠ i) by congruence.
    destruct (lookup_lt_is_Some_2 s (S j)) as [y Hy].
    { apply lookup_lt_Some in Ha. lia. }
    exists j, y. rewrite !lookup_take_lt by lia. split_and!; [done..|].
    intros <-. apply (each_twice_no_three s b j (S j) (S i) Hs); [done..|lia].
Qed.

(** The membership test on [car0] finds the occurrence status of position
    [i], unless position [i-1] holds the partner of [car0]. *)
Lemma car0_status :
  a ∈ added (take (S i) s) ↔
  seen_before s i = true ∧ after_adjacent_pair s i = false.
Proof.
  unfold seen_before. rewrite Ha, bool_decide_eq_true.
  rewrite elem_of_added, elem_of_take. split.
  - intros (j & y & Hj & Hy & Hne).
    apply lookup_lt_Some in Hy as Hlt. rewrite length_take in Hlt.
    rewrite lookup_take_lt in Hj, Hy by lia. split.
    + exists j. split; [done|lia].
    + apply not_true_iff_false.
      intros (k & Hk & Hprev)%after_adjacent_pair_true. rewrite Ha in Hprev.
      destruct (decide (j = k)) as [->|]; [rewrite <-Hk in Hy; congruence|].
      apply (each_twice_no_three s a j k i Hs); [done..|lia].
  - intros [(j & Hj & Hlt) Hadj]. apply not_true_iff_false in Hadj.
    assert (i ≠ S j) as Hne.
    { intros Hi. apply Hadj, after_adjacent_pair_true. exists j. by rewrite Ha. }
    destruct (lookup_lt_is_Some_2 s (S j)) as [y Hy].
    { apply lookup_lt_Some in Ha. lia. }
    exists j, y. rewrite !lookup_take_lt by lia. split_and!; [done..|].
    intros <-. apply (each_twice_no_three s a j (S j) i Hs); [done..|lia].
Qed.

(** On a well-formed sequence the pair [(i, i+1)] gets the documented sign,
    except directly after an adjacent pair, where it gets the other one. *)
Lemma emitted_sign :
  emissions s !! i =
    Some (Some (a, b,
                if after_adjacent_pair s i
                then - prescribed_sign s i else prescribed_sign s i)).
Proof.
  unfold emissions. rewrite (loop_lookup s ∅ i a b Ha Hb).
  rewrite (left_id_L ∅ (∪)). do 2 f_equal.
  pose proof car0_status as H0. pose proof car1_status as H1.
  unfold body, prescribed_sign. rewrite decide_False by done.
  assert (after_adjacent_pair s i = true → seen_before s i = true) as Hadj.
  { intros (k & Hk & Hp)%after_adjacent_pair_true.
    unfold seen_before. rewrite Ha. apply bool_decide_eq_true, elem_of_take.
    exists k. split; [congruence|lia]. }
  destruct (seen_before s i), (seen_before s (S i)),
    (after_adjacent_pair s i); simpl;
    repeat case_decide; try done; exfalso; intuition congruence.
Qed.

End sign_of_a_pair.



(** ** Reversal *)

Lemma occurrences_reverse c s : occurrences c (reverse s) = occurrences c s.
Proof. unfold occurrences. by rewrite filter_reverse, length_reverse. Qed.

Lemma each_twice_reverse s : each_twice s → each_twice (reverse s).
Proof.
  unfold each_twice. rewrite Forall_reverse. intros Hs.
  eapply Forall_impl; [exact Hs|].
  intros c Hc. by rewrite occurrences_reverse.
Qed.

Lemma occurrences_zero c l : c ∉ l → occurrences c l = 0%nat.
Proof.
  intros Hc. unfold occurrences.
  destruct (filter (λ x, x = c) l) as [|x l'] eqn:Hf; [done|].
  assert (x ∈ filter (λ x, x = c) l) as [-> ?]%list_elem_of_filter; [|done].
  rewrite Hf. by left.
Qed.

(** In a well-formed sequence the partner of position [m] lies either
    before or after it. *)
Lemma each_twice_partner s m c :
  each_twice s → s !! m = Some c → c ∈ take m s ↔ c ∉ drop (S m) s.
Proof.
  intros Hs Hm. pose proof (each_twice_lookup s m c Hs Hm) as H2.
  rewrite (occurrences_split c s m Hm) in H2. split.
  - intros Hl%occurrences_pos Hr%occurrences_pos. lia.
  - intros Hr%occurrences_zero.
    destruct (decide (c ∈ take m s)) as [|Hl%occurrences_zero]; [done|lia].
Qed.

(** Reversal exchanges first and second occurrences. *)
Lemma seen_before_reverse s k :
  each_twice s → (k < length s)%nat →
  seen_before (reverse s) k = negb (seen_before s (length s - S k)).
Proof.
  intros Hs Hk. unfold seen_before. rewrite reverse_lookup by done.
  destruct (lookup_lt_is_Some_2 s (length s - S k)) as [c Hc]; [lia|].
  rewrite Hc, take_reverse.
  replace (length s - k)%nat with (S (length s - S k)) by lia.
  pose proof (each_twice_partner s _ c Hs Hc) as Hp.
  apply eq_true_iff_eq.
  rewrite negb_true_iff, bool_decide_eq_true, bool_decide_eq_false.
  rewrite elem_of_reverse. split.
  - intros Hr Hl. by apply Hp in Hl.
  - intros Hl. destruct (decide (c ∈ drop (S (length s - S k)) s)); [done|].
    by destruct Hl; apply Hp.
Qed.

Lemma prescribed_sign_reverse s i :
  each_twice s → (S i < length s)%nat →
  prescribed_sign (reverse s) i = prescribed_sign s (length s - S (S i)).
Proof.
  intros Hs Hi. unfold prescribed_sign.
  rewrite !seen_before_reverse by (done || lia).
  replace (S (length s - S (S i))) with (length s - S i)%nat by lia.
  by destruct (seen_before s _), (seen_before s _).
Qed.

(** The documented signs of the reversed sequence are the documented signs
    in reverse order. *)
Lemma prescribed_signs_reverse s :
  each_twice s →
  prescribed_sign (reverse s) <$> seq 0 (length s - 1) =
  reverse (prescribed_sign s <$> seq 0 (length s - 1)).
Proof.
  intros Hs. apply list_eq. intros i.
  destruct (decide (i < length s - 1)%nat) as [Hi|Hi].
  - rewrite reverse_lookup by (by rewrite length_fmap, length_seq).
    rewrite !list_lookup_fmap, length_fmap, length_seq.
    rewrite !lookup_seq_lt by lia. simpl.
    rewrite prescribed_sign_reverse by (done || lia).
    do 2 f_equal. lia.
  - rewrite !lookup_ge_None_2; [done|..];
      rewrite ?length_reverse, length_fmap, length_seq; lia.
Qed.

Lemma adjacent_equal_cons a b t :
  adjacent_equal (a :: b :: t) =
  ((if decide (a = b) then 1 else 0) + adjacent_equal (b :: t))%nat.
Proof. reflexivity. Qed.

Lemma adjacent_equal_zero s i a b :
  adjacent_equal s = 0%nat → s !! i = Some a → s !! S i = Some b → a ≠ b.
Proof.
  revert i. induction s as [|a0 [|b0 t] IH]; intros i H0 Ha Hb; [done| |].
  { by destruct i. }
  rewrite adjacent_equal_cons in H0. destruct i as [|i].
  - simpl in Ha, Hb. simplify_eq. by destruct (decide (a = b)).
  - apply (IH i); [lia|done..].
Qed.

Lemma adjacent_equal_zero_inv s :
  (∀ i a b, s !! i = Some a → s !! S i = Some b → a ≠ b) →
  adjacent_equal s = 0%nat.
Proof.
  induction s as [|a0 [|b0 t] IH]; intros Hne; [done..|].
  rewrite adjacent_equal_cons, decide_False by (by apply (Hne 0%nat)).
  apply IH. intros i. apply (Hne (S i)).
Qed.

Lemma adjacent_equal_reverse s :
  adjacent_equal s = 0%nat → adjacent_equal (reverse s) = 0%nat.
Proof.
  intros H0. apply adjacent_equal_zero_inv. intros i a b Ha Hb.
  apply reverse_lookup_Some in Ha as [Ha Hi], Hb as [Hb Hi'].
  intros <-.
  replace (length s - S i)%nat with (S (length s - S (S i))) in Ha by lia.
  by apply (adjacent_equal_zero s _ a a H0 Hb Ha).
Qed.

Lemma signs_of_tagged (pairs : list (Z * Z)) (f : nat → Z) k n :
  (k + n ≤ length pairs)%nat →
  sign <$> omap id ((λ i, t ← pairs !! i; Some (t, f i)) <$> seq k n) =
  f <$> seq k n.
Proof.
  revert k. induction n as [|n IH]; intros k Hk; [done|].
  destruct (lookup_lt_is_Some_2 pairs k) as [p Hp]; [lia|].
  cbn [seq fmap list_fmap]. rewrite Hp. simpl. f_equal.
  apply IH. lia.
Qed.

(** Away from adjacent pairs the generator yields the documented signs. *)
Lemma signs_without_adjacent_pairs s :
  each_twice s → adjacent_equal s = 0%nat →
  sign <$> spin_glass s = prescribed_sign s <$> seq 0 (length s - 1).
Proof.
  intros Hs H0. unfold spin_glass.
  assert (emissions s =
          (λ i, t ← adjacent_pairs s !! i; Some (t, prescribed_sign s i))
            <$> seq 0 (length s - 1)) as ->.
  { apply list_eq. intros i. rewrite list_lookup_fmap.
    destruct (decide (i < length s - 1)%nat) as [Hi|Hi].
    - destruct (lookup_lt_is_Some_2 s i) as [a Ha]; [lia|].
      destruct (lookup_lt_is_Some_2 s (S i)) as [b Hb]; [lia|].
      pose proof (adjacent_equal_zero s i a b H0 Ha Hb) as Hab.
      etrans; [exact (emitted_sign s i a b Hs Ha Hb Hab)|].
      rewrite lookup_seq_lt by done. simpl.
      rewrite (proj2 (adjacent_pairs_lookup s i a b)) by done. simpl.
      assert (after_adjacent_pair s i = false) as ->; [|done].
      apply not_true_iff_false.
      intros (j & -> & Hj)%after_adjacent_pair_true. rewrite Ha in Hj.
      by apply (adjacent_equal_zero s j a a H0).
    - rewrite (lookup_ge_None_2 (seq _ _)) by (rewrite length_seq; lia).
      apply lookup_ge_None_2. unfold emissions.
      rewrite loop_length, adjacent_pairs_length. lia. }
  apply signs_of_tagged. rewrite adjacent_pairs_length. lia.
Qed.

(** So without adjacent pairs, reversing the sequence reverses the signs. *)
Lemma reverse_signs_without_adjacent_pairs s :
  each_twice s → adjacent_equal s = 0%nat →
  sign <$> spin_glass (reverse s) = reverse (sign <$> spin_glass s).
Proof.
  intros Hs H0.
  rewrite (signs_without_adjacent_pairs s Hs H0).
  rewrite (signs_without_adjacent_pairs (reverse s))
    by auto using each_twice_reverse, adjacent_equal_reverse.
  rewrite length_reverse. by apply prescribed_signs_reverse.
Qed.

(** ** Malformed input, and the defect after an adjacent pair *)

Lemma loop_cars seen s :
  fst <$> omap id (loop seen (adjacent_pairs s)) =
  filter (λ p, p.1 ≠ p.2) (adjacent_pairs s).
Proof.
  revert seen. induction s as [|a [|b t] IH]; intros seen; [done..|].
  rewrite loop_adjacent_cons, adjacent_pairs_cons, filter_cons.
  destruct (decide (a = b)) as [->|Hab].
  - rewrite body_skip, decide_False by (simpl; tauto). apply IH.
  - destruct (body_yield seen a b Hab) as (sg & _ & ->).
    rewrite decide_True by done. simpl. f_equal. apply IH.
Qed.

(** C8. [spin_glass] validates nothing and raises no error: on every
    sequence of integers, malformed ones included (an identifier occurring
    once or more than twice, an odd length), the run reaches the end of the
    generator and has yielded one triple per unequal adjacent pair. *)
Theorem spin_glass_accepts_malformed (s : list Z) :
  (∃ σ, SpinGlassMachine.runs_to s σ
        ∧ SpinGlassMachine.yielded σ = spin_glass s)
  ∧ fst <$> spin_glass s = filter (λ p, p.1 ≠ p.2) (adjacent_pairs s)
  ∧ length (spin_glass s) = adjacent_differ s
  ∧ (¬ each_twice [0; 1; 0] ∧ spin_glass [0; 1; 0] = [(0, 1, -1); (1, 0, 1)])
  ∧ (¬ each_twice [5; 5; 5; 6] ∧ spin_glass [5; 5; 5; 6] = [(5, 6, -1)])
  ∧ (¬ each_twice [4] ∧ spin_glass [4] = []).
Proof.
  split_and!.
  - destruct (sg_run s) as (σ & Hrun & _ & Hout & _). eauto.
  - apply loop_cars.
  - apply spin_glass_length.
  - by apply (bool_decide_unpack (¬ _)).
  - by vm_compute.
  - by apply (bool_decide_unpack (¬ _)).
  - by vm_compute.
  - by apply (bool_decide_unpack (¬ _)).
  - by vm_compute.
Qed.

(** C1 fails on the source. In [[0,0,1,1]] every identifier appears twice;
    position 1 is the second occurrence of 0 and position 2 the first
    occurrence of 1, so the pair (1, 2) calls for the antiferromagnetic
    sign, yet the generator yields the ferromagnetic one: the [continue]
    taken for the pair (0, 0) has skipped the [add] of 0. *)
Theorem spin_glass_sign_after_adjacent_pair :
  each_twice [0; 0; 1; 1]
  ∧ seen_before [0; 0; 1; 1] 1 = true
  ∧ seen_before [0; 0; 1; 1] 2 = false
  ∧ prescribed_sign [0; 0; 1; 1] 1 = antiferromagnetic
  ∧ emissions [0; 0; 1; 1] !! 1%nat = Some (Some (0, 1, ferromagnetic))
  ∧ spin_glass [0; 0; 1; 1] = [(0, 1, ferromagnetic)].
Proof.
  split_and!; try by vm_compute.
  by apply (bool_decide_unpack _).
Qed.

(** C5 fails on the source. [[0,1,1,0]] is its own reverse and every
    identifier appears twice in it, but the signs yielded, [-1, 1], are not
    their own reverse; the documented signs, [-1, -1], are. *)
Theorem spin_glass_reverse_signs :
  each_twice [0; 1; 1; 0]
  ∧ reverse [0; 1; 1; 0] = [0; 1; 1; 0]
  ∧ sign <$> spin_glass [0; 1; 1; 0] = [-1; 1]
  ∧ sign <$> spin_glass (reverse [0; 1; 1; 0]) ≠
      reverse (sign <$> spin_glass [0; 1; 1; 0])
  ∧ prescribed_sign [0; 1; 1; 0] <$> [0; 2]%nat = [-1; -1].
Proof.
  split_and!; try by vm_compute.
  by apply (bool_decide_unpack _).
Qed.

(** ** Determinism and purity *)

(** C9. Both functions are deterministic and free of side effects: every
    complete run on a given input ends in the same state, so with the same
    full output (the list of triples, respectively the returned count), and
    the caller's sequences are in that state what they were at the call. *)
Theorem runs_deterministic_and_pure (paint_bitstring car_sequence : list Z) :
  (∃ σ, SpinGlassMachine.runs_to car_sequence σ
        ∧ (∀ σ', SpinGlassMachine.runs_to car_sequence σ' → σ' = σ)
        ∧ SpinGlassMachine.yielded σ = spin_glass car_sequence
        ∧ SpinGlassMachine.car_sequence σ = car_sequence)
  ∧ (∃ σ, ColorChangesMachine.runs_to paint_bitstring car_sequence σ
          ∧ (∀ σ', ColorChangesMachine.runs_to paint_bitstring car_sequence σ'
                   → σ' = σ)
          ∧ ColorChangesMachine.outcome σ =
              color_changes paint_bitstring car_sequence
          ∧ ColorChangesMachine.paint_bitstring σ = paint_bitstring
          ∧ ColorChangesMachine.car_sequence σ = car_sequence).
Proof. split; [apply sg_run|apply cc_run]. Qed.

(** * Further properties of the notebooks *)

(** ** The generated car sequence *)

Lemma occurrences_Permutation c s s' :
  s ≡ₚ s' → occurrences c s = occurrences c s'.
Proof. intros Hp. unfold occurrences. by rewrite Hp. Qed.

Lemma occurrences_NoDup c l : NoDup l → c ∈ l → occurrences c l = 1%nat.
Proof.
  intros Hnd Hc. apply list_elem_of_split in Hc as (l1 & l2 & ->).
  apply NoDup_app in Hnd as (_ & Hl1 & Hl2%NoDup_cons).
  rewrite occurrences_app, occurrences_cons_eq.
  rewrite !occurrences_zero; [done|tauto|].
  intros Hc. apply (Hl1 c Hc). by left.
Qed.

Lemma elem_of_paired_cars c n : c ∈ paired_cars n ↔ 0 ≤ c < n.
Proof.
  unfold paired_cars. rewrite elem_of_app, elem_of_seqZ. lia.
Qed.

Lemma paired_cars_each_twice n : each_twice (paired_cars n).
Proof.
  apply Forall_forall. intros c Hc%elem_of_paired_cars.
  unfold paired_cars. rewrite occurrences_app.
  rewrite (occurrences_NoDup c (seqZ 0 n)); [done|apply NoDup_seqZ|].
  apply elem_of_seqZ. lia.
Qed.

Lemma each_twice_Permutation s s' : s ≡ₚ s' → each_twice s' → each_twice s.
Proof.
  intros Hp Hs'. apply Forall_forall. intros c Hc.
  rewrite (occurrences_Permutation c s s' Hp).
  rewrite Hp in Hc. by apply (proj1 (Forall_forall _ _) Hs').
Qed.

(** X1. Whatever permutation [np.random.permutation] returns, the car
    sequence of the notebook is well formed: every identifier appears
    exactly twice, the length is twice the number of pairs, and every
    identifier lies in [range(CAR_PAIR_COUNT)]. *)
Theorem shuffled_cars_well_formed (car_pair_count : Z) (car_sequence : list Z) :
  car_sequence ≡ₚ paired_cars car_pair_count →
  each_twice car_sequence
  ∧ length car_sequence = (2 * Z.to_nat car_pair_count)%nat
  ∧ Forall (λ c, 0 ≤ c < car_pair_count) car_sequence.
Proof.
  intros Hp. split_and!.
  - eapply each_twice_Permutation; [done|apply paired_cars_each_twice].
  - rewrite Hp. unfold paired_cars. rewrite length_app, length_seqZ. lia.
  - apply Forall_forall. intros c Hc. rewrite Hp in Hc.
    by apply elem_of_paired_cars.
Qed.

Lemma shuffled_cars_well_formed_witness :
  each_twice [1; 0; 2; 2; 0; 1] ∧ Forall (λ c, 0 ≤ c < 3) [1; 0; 2; 2; 0; 1].
Proof.
  assert ([1; 0; 2; 2; 0; 1] ≡ₚ paired_cars 3) as Hp.
  { change (paired_cars 3) with [0; 1; 2; 0; 1; 2].
    apply (bool_decide_unpack _). by vm_compute. }
  destruct (shuffled_cars_well_formed 3 [1; 0; 2; 2; 0; 1] Hp) as (H1 & _ & H3).
  split; assumption.
Defined.

(** ** The spin glass encodes the colour changes *)

Lemma omap_id_fmap {A B} (f : A → option B) (l : list A) :
  omap id (f <$> l) = omap f l.
Proof.
  induction l as [|x l IH]; [done|]. csimpl. rewrite IH.
  by destruct (f x).
Qed.

(** Away from adjacent pairs the generator yields, position by position,
    the documented interaction. *)
Lemma spin_glass_without_adjacent_pairs s :
  each_twice s → adjacent_equal s = 0%nat →
  spin_glass s = omap (pair_at s) (seq 0 (length s - 1)).
Proof.
  intros Hs H0. unfold spin_glass.
  rewrite <-(omap_id_fmap (pair_at s)). f_equal.
  apply list_eq. intros i. rewrite list_lookup_fmap.
  destruct (decide (i < length s - 1)%nat) as [Hi|Hi].
  - destruct (lookup_lt_is_Some_2 s i) as [a Ha]; [lia|].
    destruct (lookup_lt_is_Some_2 s (S i)) as [b Hb]; [lia|].
    pose proof (adjacent_equal_zero s i a b H0 Ha Hb) as Hab.
    etrans; [exact (emitted_sign s i a b Hs Ha Hb Hab)|].
    rewrite lookup_seq_lt by done. simpl. unfold pair_at.
    rewrite Ha, Hb. simpl.
    assert (after_adjacent_pair s i = false) as ->; [|done].
    apply not_true_iff_false.
    intros (j & -> & Hj)%after_adjacent_pair_true. rewrite Ha in Hj.
    by apply (adjacent_equal_zero s j a a H0).
  - rewrite (lookup_ge_None_2 (seq _ _)) by (rewrite length_seq; lia).
    apply lookup_ge_None_2. unfold emissions.
    rewrite loop_length, adjacent_pairs_length. lia.
Qed.

Lemma differs_at_lookup colors i c0 c1 :
  colors !! i = Some c0 → colors !! S i = Some c1 →
  differs_at colors i ↔ int_value c0 ≠ int_value c1.
Proof.
  intros H0 H1. unfold differs_at. split.
  - intros (? & ? & ? & ? & ?). by simplify_eq.
  - intros ?. by exists c0, c1.
Qed.

(** The Ising term of the documented interaction is +1 where the colours
    of the two positions differ and -1 where they agree. *)
Lemma ising_term_pair pb s colors i a b b0 b1 :
  (∀ j, colors !! j = derived_color pb s j) →
  s !! i = Some a → s !! S i = Some b →
  py_getitem pb a = Some b0 → py_getitem pb b = Some b1 →
  is_bit b0 → is_bit b1 →
  ising_term pb (a, b, prescribed_sign s i) =
    Some (if decide (differs_at colors i) then 1 else -1).
Proof.
  intros Hcolors Ha Hb Hb0 Hb1 Hbit0 Hbit1.
  pose proof (Hcolors i) as Hi. pose proof (Hcolors (S i)) as HSi.
  unfold derived_color in Hi, HSi.
  rewrite Ha in Hi. simpl in Hi. rewrite Hb0 in Hi. simpl in Hi.
  rewrite Hb in HSi. simpl in HSi. rewrite Hb1 in HSi. simpl in HSi.
  unfold ising_term. simpl. rewrite Hb0, Hb1. simpl. f_equal.
  rewrite (decide_ext _ _ _ _ (differs_at_lookup _ _ _ _ Hi HSi)).
  unfold prescribed_sign, seen_before. rewrite Ha, Hb.
  unfold ferromagnetic, antiferromagnetic, spin.
  destruct Hbit0 as [-> | ->], Hbit1 as [-> | ->];
    (destruct (decide (a ∈ take i s)) as [Hin0|Hin0];
     [rewrite (bool_decide_eq_true_2 _ Hin0)
     |rewrite (bool_decide_eq_false_2 _ Hin0)]);
    (destruct (decide (b ∈ take (S i) s)) as [Hin1|Hin1];
     [rewrite (bool_decide_eq_true_2 _ Hin1)
     |rewrite (bool_decide_eq_false_2 _ Hin1)]);
    reflexivity.
Qed.

Lemma ising_energy_omap pb (f : nat → option interaction)
    (Q : nat → Prop) `{!∀ i, Decision (Q i)} (l : list nat) :
  (∀ i, i ∈ l →
        ∃ t, f i = Some t ∧
             ising_term pb t = Some (if decide (Q i) then 1 else -1)) →
  ising_energy pb (omap f l) =
    Some (2 * Z.of_nat (length (filter Q l)) - Z.of_nat (length l))
  ∧ length (omap f l) = length l.
Proof.
  induction l as [|i l IH]; intros Hl; [done|].
  destruct (Hl i) as (t & Hf & Ht); [by left|].
  destruct IH as [IHe IHl]; [intros j Hj; apply Hl; by right|].
  cbn [omap list_omap]. rewrite Hf. cbn [ising_energy length].
  rewrite Ht, IHe, IHl, filter_cons. simpl. split; [|done].
  f_equal. destruct (decide (Q i)); simpl; lia.
Qed.

(** X2. On a well-formed car sequence without adjacent pairs, and for 0/1
    colours of the first cars, the Ising energy of the interactions that
    [spin_glass] yields is twice the number of colour changes that
    [color_changes] counts, minus the number of interactions: the
    colourings of least energy are those with the fewest colour changes. *)
Theorem spin_glass_energy_counts_changes
    (paint_bitstring car_sequence : list Z) :
  each_twice car_sequence →
  adjacent_equal car_sequence = 0%nat →
  Forall (valid_index paint_bitstring) car_sequence →
  Forall is_bit paint_bitstring →
  ∃ n : Z,
    color_changes paint_bitstring car_sequence = Some n ∧
    ising_energy paint_bitstring (spin_glass car_sequence) =
      Some (2 * n - Z.of_nat (length (spin_glass car_sequence))).
Proof.
  intros Hs H0 Hvalid Hbits.
  destruct (color_changes_spec _ _ Hvalid) as (colors & Hlen & Hcolors & _ & Hn).
  exists (Z.of_nat (changes colors)). split; [done|].
  rewrite (spin_glass_without_adjacent_pairs _ Hs H0).
  destruct (ising_energy_omap paint_bitstring (pair_at car_sequence)
              (differs_at colors) (seq 0 (length car_sequence - 1)))
    as [He Hl].
  - intros i [_ Hi]%elem_of_seq.
    destruct (lookup_lt_is_Some_2 car_sequence i) as [a Ha]; [lia|].
    destruct (lookup_lt_is_Some_2 car_sequence (S i)) as [b Hb]; [lia|].
    destruct (py_getitem_valid paint_bitstring a) as [b0 Hb0].
    { by apply (Forall_lookup_1 _ _ _ _ Hvalid Ha). }
    destruct (py_getitem_valid paint_bitstring b) as [b1 Hb1].
    { by apply (Forall_lookup_1 _ _ _ _ Hvalid Hb). }
    assert (∀ c x, py_getitem paint_bitstring c = Some x → is_bit x) as Hbit.
    { intros c x Hx. unfold py_getitem in Hx.
      repeat case_decide; try done;
        by apply (Forall_lookup_1 _ _ _ _ Hbits Hx). }
    exists (a, b, prescribed_sign car_sequence i).
    split; [unfold pair_at; by rewrite Ha, Hb|].
    eapply ising_term_pair; eauto.
  - rewrite He, Hl. unfold changes. by rewrite Hlen.
Qed.

Lemma spin_glass_energy_counts_changes_witness :
  color_changes [0; 1; 1] [0; 1; 2; 0; 1; 2] = Some 2
  ∧ ising_energy [0; 1; 1] (spin_glass [0; 1; 2; 0; 1; 2]) = Some (2 * 2 - 5).
Proof.
  assert (each_twice [0; 1; 2; 0; 1; 2]) as Hs
    by (by apply (bool_decide_unpack _)).
  assert (Forall (valid_index [0; 1; 1]) [0; 1; 2; 0; 1; 2]) as Hvalid
    by (unfold valid_index; repeat constructor; simpl; lia).
  assert (Forall is_bit [0; 1; 1]) as Hbits
    by (unfold is_bit; repeat constructor; lia).
  destruct (spin_glass_energy_counts_changes [0; 1; 1] [0; 1; 2; 0; 1; 2]
              Hs eq_refl Hvalid Hbits) as (n & Hn & He).
  assert (n = 2) as -> by (vm_compute in Hn; congruence).
  split; [exact Hn|exact He].
Defined.

(** ** Adjacent pairs always cost a colour change *)

Lemma adjacent_equal_filter s :
  adjacent_equal s =
  length (filter (λ i, s !! i = s !! S i) (seq 0 (length s - 1))).
Proof.
  induction s as [|a [|b t] IH]; [done..|].
  rewrite adjacent_equal_cons, IH. cbn [length].
  rewrite !Nat.sub_succ, !Nat.sub_0_r. cbn [seq].
  assert (length (filter (λ i, (a :: b :: t) !! i = (a :: b :: t) !! S i)
                    (seq 1 (length t))) =
          length (filter (λ i, (b :: t) !! i = (b :: t) !! S i)
                    (seq 0 (length t)))) as Htl
    by (by rewrite filter_seq_S).
  rewrite filter_cons. simpl in *.
  destruct (decide (a = b)) as [->|Hab].
  - rewrite decide_True by done. simpl. by rewrite Htl.
  - rewrite decide_False by congruence. by rewrite Htl.
Qed.

Lemma filter_length_mono {A} (P Q : A → Prop)
    `{!∀ x, Decision (P x)} `{!∀ x, Decision (Q x)} (l : list A) :
  (∀ x, x ∈ l → P x → Q x) →
  (length (filter P l) ≤ length (filter Q l))%nat.
Proof.
  induction l as [|x l IH]; intros Hl; [done|].
  rewrite !filter_cons.
  assert (length (filter P l) ≤ length (filter Q l))%nat
    by (apply IH; intros y ?; apply Hl; by right).
  destruct (decide (P x)) as [HP|]; destruct (decide (Q x)) as [|HQ];
    simpl; try lia.
  destruct HQ. apply Hl; [by left|done].
Qed.

(** The two members of an adjacent pair get different colours, whatever
    the colour noted for the pair. *)
Lemma adjacent_pair_differs pb s colors i c :
  each_twice s →
  (∀ j, colors !! j = derived_color pb s j) →
  s !! i = Some c → s !! S i = Some c →
  is_Some (py_getitem pb c) →
  differs_at colors i.
Proof.
  intros Hs Hcolors Hi HSi [b Hb].
  pose proof (Hcolors i) as Hci. pose proof (Hcolors (S i)) as HcSi.
  unfold derived_color in Hci, HcSi.
  rewrite Hi in Hci. simpl in Hci. rewrite Hb in Hci. simpl in Hci.
  rewrite HSi in HcSi. simpl in HcSi. rewrite Hb in HcSi. simpl in HcSi.
  rewrite decide_False in Hci; cycle 1.
  { intros (j & Hj & Hlt)%elem_of_take.
    apply (each_twice_no_three s c j i (S i) Hs); [done..|lia]. }
  rewrite decide_True in HcSi; cycle 1.
  { apply elem_of_take. exists i. split; [done|lia]. }
  apply (differs_at_lookup _ _ _ _ Hci HcSi). simpl.
  case_bool_decide; lia.
Qed.

Lemma changes_at_least_adjacent_pairs pb s colors :
  each_twice s → Forall (valid_index pb) s →
  length colors = length s →
  (∀ j, colors !! j = derived_color pb s j) →
  (adjacent_equal s ≤ changes colors)%nat.
Proof.
  intros Hs Hvalid Hlen Hcolors.
  rewrite adjacent_equal_filter. unfold changes. rewrite Hlen.
  apply filter_length_mono. intros i [_ Hi]%elem_of_seq Heq.
  destruct (lookup_lt_is_Some_2 s i) as [c Hc]; [lia|].
  rewrite Hc in Heq. symmetry in Heq.
  eapply adjacent_pair_differs; eauto.
  apply py_getitem_valid. by apply (Forall_lookup_1 _ _ _ _ Hvalid Hc).
Qed.

(** X3. On a well-formed car sequence [color_changes] returns at least the
    number of adjacent pairs, whatever the paint bitstring: the pairs for
    which [spin_glass] yields no interaction cost one colour change each. *)
Theorem color_changes_at_least_adjacent_pairs
    (paint_bitstring car_sequence : list Z) :
  each_twice car_sequence →
  Forall (valid_index paint_bitstring) car_sequence →
  ∃ n : Z,
    color_changes paint_bitstring car_sequence = Some n ∧
    Z.of_nat (adjacent_equal car_sequence) ≤ n.
Proof.
  intros Hs Hvalid.
  destruct (color_changes_spec _ _ Hvalid) as (colors & Hlen & Hcolors & _ & Hn).
  exists (Z.of_nat (changes colors)). split; [done|].
  apply inj_le. by eapply changes_at_least_adjacent_pairs.
Qed.

Lemma color_changes_at_least_adjacent_pairs_witness :
  ∃ n : Z, color_changes [7; 0] [0; 0; 1; 1] = Some n ∧ 2 ≤ n.
Proof.
  assert (each_twice [0; 0; 1; 1]) as Hs by (by apply (bool_decide_unpack _)).
  assert (Forall (valid_index [7; 0]) [0; 0; 1; 1]) as Hvalid
    by (unfold valid_index; repeat constructor; simpl; lia).
  exact (color_changes_at_least_adjacent_pairs [7; 0] [0; 0; 1; 1] Hs Hvalid).
Defined.

(** ** The best measured bitstring *)

Lemma best_loop_spec s rows :
  ∀ st0 st,
    best_loop s st0 rows = Some st →
    (∀ pb, pb ∈ rows →
           ∃ r, color_changes pb s = Some r ∧ best_result st ≤ r)
    ∧ (st = st0
       ∨ ∃ before pb after,
           rows = before ++ pb :: after ∧
           best_paint_bitstring st = Some pb ∧
           color_changes pb s = Some (best_result st) ∧
           best_result st < best_result st0 ∧
           ∀ pb', pb' ∈ before →
                  ∃ r, color_changes pb' s = Some r ∧ best_result st < r).
Proof.
  induction rows as [|pb rows IH]; intros st0 st Hloop.
  { simpl in Hloop. simplify_eq. split; [by intros ? ?%elem_of_nil|by left]. }
  cbn [best_loop] in Hloop.
  destruct (color_changes pb s) as [r|] eqn:Hr; [|done]. simpl in Hloop.
  destruct (decide (r < best_result st0)) as [Hlt|Hge].
  - destruct (IH _ _ Hloop) as [Hall Hsel]. simpl in Hsel.
    assert (best_result st ≤ r) as Hle.
    { destruct Hsel as [->|(?&?&?&_&_&_&?&_)]; simpl; lia. }
    split.
    + intros pb' [->|Hin]%elem_of_cons; [by exists r|by apply Hall].
    + right. destruct Hsel as [->|(before & pb' & after & -> & ? & ? & ? & Hb)].
      * exists [], pb, rows. simpl. split_and!; try done.
        by intros ? ?%elem_of_nil.
      * exists (pb :: before), pb', after. split_and!; try done; [lia|].
        intros x [->|Hin]%elem_of_cons; [exists r; split; [done|lia]|by apply Hb].
  - destruct (IH _ _ Hloop) as [Hall Hsel].
    assert (best_result st ≤ best_result st0) as Hle.
    { destruct Hsel as [->|(?&?&?&_&_&_&?&_)]; lia. }
    split.
    + intros pb' [->|Hin]%elem_of_cons; [exists r; split; [done|lia]|by apply Hall].
    + destruct Hsel as [->|(before & pb' & after & -> & ? & ? & ? & Hb)];
        [by left|right].
      exists (pb :: before), pb', after. split_and!; try done.
      intros x [->|Hin]%elem_of_cons; [exists r; split; [done|lia]|by apply Hb].
Qed.

(** X4. When the last cell has gone through the measurements,
    [best_result] is at most [CAR_PAIR_COUNT] and at most the number of
    colour changes of every measured bitstring.  If [best_paint_bitstring]
    is bound, it is the first measured bitstring with that least number of
    changes, and the number is below [CAR_PAIR_COUNT]; it stays unbound
    exactly when no measured bitstring has fewer than [CAR_PAIR_COUNT]
    changes, and then [best_result] is still [CAR_PAIR_COUNT]. *)
Theorem best_of_selects_first_minimum
    (car_pair_count : Z) (car_sequence : list Z)
    (measurements : list (list Z)) (st : best) :
  best_of car_pair_count car_sequence measurements = Some st →
  best_result st ≤ car_pair_count
  ∧ (∀ pb, pb ∈ measurements →
           ∃ r, color_changes pb car_sequence = Some r ∧ best_result st ≤ r)
  ∧ (∀ pb, best_paint_bitstring st = Some pb →
           best_result st < car_pair_count ∧
           color_changes pb car_sequence = Some (best_result st) ∧
           ∃ before after,
             measurements = before ++ pb :: after ∧
             ∀ pb', pb' ∈ before →
                    ∃ r, color_changes pb' car_sequence = Some r ∧
                         best_result st < r)
  ∧ (best_paint_bitstring st = None ↔
     ∀ pb r, pb ∈ measurements →
             color_changes pb car_sequence = Some r → car_pair_count ≤ r)
  ∧ (best_paint_bitstring st = None → best_result st = car_pair_count).
Proof.
  intros Hbest. unfold best_of in Hbest.
  destruct (best_loop_spec _ _ _ _ Hbest) as [Hall Hsel]. simpl in Hsel.
  split_and!.
  - destruct Hsel as [->|(?&?&?&_&_&_&?&_)]; simpl; lia.
  - done.
  - intros pb Hpb.
    destruct Hsel as [->|(before & pb' & after & -> & ? & ? & ? & Hb)];
      [done|]. simplify_eq. eauto 10.
  - split.
    + intros Hnone pb r Hin Hr.
      destruct Hsel as [->|(?&?&?&_&?&_)]; [|congruence].
      destruct (Hall pb Hin) as (r' & Hr' & Hle). simpl in Hle.
      by simplify_eq.
    + intros Hge.
      destruct Hsel as [->|(before & pb & after & -> & ? & Hr & Hlt & _)];
        [done|].
      assert (car_pair_count ≤ best_result st); [|lia].
      eapply (Hge pb); [|done]. apply elem_of_app. right. by left.
  - intros Hnone. destruct Hsel as [->|(?&?&?&_&?&_)]; [done|congruence].
Qed.

Lemma best_of_selects_first_minimum_witness :
  best_of 2 [0; 1; 0; 1] [[0; 1]; [0; 0]; [1; 1]] = Some (Best 1 (Some [0; 0]))
  ∧ ∃ r, color_changes [1; 1] [0; 1; 0; 1] = Some r ∧ 1 ≤ r.
Proof.
  assert (best_of 2 [0; 1; 0; 1] [[0; 1]; [0; 0]; [1; 1]]
          = Some (Best 1 (Some [0; 0]))) as Hbest by (by vm_compute).
  split; [exact Hbest|].
  destruct (best_of_selects_first_minimum 2 [0; 1; 0; 1] _ _ Hbest)
    as (_ & Hall & _).
  apply (Hall [1; 1]). by apply (bool_decide_unpack _).
Defined.

Lemma best_loop_total s rows st0 :
  Forall (λ pb, Forall (valid_index pb) s) rows →
  is_Some (best_loop s st0 rows).
Proof.
  revert st0. induction rows as [|pb rows IH]; intros st0 Hrows; [by eexists|].
  apply Forall_cons in Hrows as [Hpb Hrows]. cbn [best_loop].
  destruct (color_changes_spec _ _ Hpb) as (? & _ & _ & _ & ->). simpl.
  case_decide; by apply IH.
Qed.

(** X5. When every car is directly followed by its partner (as many
    adjacent pairs as [CAR_PAIR_COUNT]), no measured bitstring has fewer
    than [CAR_PAIR_COUNT] colour changes: the last cell ends with
    [best_result] still [CAR_PAIR_COUNT] and [best_paint_bitstring]
    unbound, whatever was measured. *)
Theorem best_unbound_when_all_pairs_adjacent
    (car_pair_count : Z) (car_sequence : list Z)
    (measurements : list (list Z)) :
  each_twice car_sequence →
  car_pair_count ≤ Z.of_nat (adjacent_equal car_sequence) →
  Forall (λ pb, Forall (valid_index pb) car_sequence) measurements →
  best_of car_pair_count car_sequence measurements =
    Some (Best car_pair_count None).
Proof.
  intros Hs Hadj Hrows.
  destruct (best_loop_total car_sequence measurements
              (Best car_pair_count None) Hrows) as [st Hbest].
  fold (best_of car_pair_count car_sequence measurements) in Hbest.
  rewrite Hbest. f_equal.
  destruct (best_loop_spec _ _ _ _ Hbest) as [Hall Hsel].
  destruct Hsel as [->|(before & pb & after & -> & _ & Hr & Hlt & _)]; [done|].
  apply Forall_app in Hrows as [_ [Hpb _]%Forall_cons].
  destruct (color_changes_spec _ _ Hpb) as (colors & Hlen & Hcolors & _ & Hn).
  assert (Z.of_nat (adjacent_equal car_sequence) ≤ best_result st); [|simpl in *; lia].
  rewrite Hn in Hr. injection Hr as <-.
  apply inj_le. by eapply changes_at_least_adjacent_pairs.
Qed.

Lemma best_unbound_when_all_pairs_adjacent_witness :
  best_of 3 [2; 2; 0; 0; 1; 1] [[0; 0; 0]; [1; 0; 1]] = Some (Best 3 None).
Proof.
  apply best_unbound_when_all_pairs_adjacent.
  - by apply (bool_decide_unpack _).
  - by vm_compute.
  - unfold valid_index. repeat constructor; simpl; lia.
Defined.

(** ** The phase separator *)

Lemma spin_glass_triples s :
  Forall (λ t, t.1.1 ≠ t.1.2 ∧ t.1.1 ∈ s ∧ t.1.2 ∈ s ∧ is_sign t.2)
    (spin_glass s).
Proof.
  destruct (loop_contributions ∅ s) as (signs & _ & Hsigns & Hout).
  fold (emissions s) in Hout. fold (spin_glass s) in Hout.
  rewrite Hout. apply Forall_concat, Forall_lookup.
  intros i l Hl. apply list_lookup_imap_Some in Hl as (sg & Hsg & ->).
  unfold contribution.
  destruct (s !! i) as [a|] eqn:Ha; [|done].
  destruct (s !! S i) as [b|] eqn:Hb; [|done].
  case_decide; [done|]. apply Forall_singleton. simpl.
  split_and!; [done|by eapply list_elem_of_lookup_2..|].
  by eapply Forall_lookup_1.
Qed.

Lemma py_getitem_in_range {A} (xs : list A) (c : Z) :
  0 ≤ c < Z.of_nat (length xs) → py_getitem xs c = xs !! Z.to_nat c.
Proof. intros Hc. unfold py_getitem. cbv zeta. by rewrite decide_True. Qed.

Lemma separate_in_range {Qid} `{EqDecision Qid}
    (reg : list Qid) (ts : list interaction) :
  NoDup reg →
  Forall (λ t, t.1.1 ≠ t.1.2 ∧
               0 ≤ t.1.1 < Z.of_nat (length reg) ∧
               0 ≤ t.1.2 < Z.of_nat (length reg)) ts →
  ∃ ops,
    separate reg ts = (ops, Exhausted) ∧
    factor <$> ops = sign <$> ts ∧
    Forall (λ op, qubit0 op ≠ qubit1 op) ops.
Proof.
  intros Hnd. induction ts as [|[[c0 c1] sg] ts IH]; intros Hts.
  { by exists []. }
  apply Forall_cons in Hts as [(Hne & H0 & H1) Hts]. simpl in Hne, H0, H1.
  destruct (IH Hts) as (ops & Hops & Hf & Hq).
  cbn [separate]. rewrite !py_getitem_in_range by done.
  destruct (lookup_lt_is_Some_2 reg (Z.to_nat c0)) as [q0 Hq0]; [lia|].
  destruct (lookup_lt_is_Some_2 reg (Z.to_nat c1)) as [q1 Hq1]; [lia|].
  assert (q0 ≠ q1) as Hq01.
  { intros <-. pose proof (NoDup_lookup _ _ _ _ Hnd Hq0 Hq1). lia. }
  rewrite Hq0, Hq1, decide_False, Hops by done.
  eexists. split_and!; [done|..].
  - rewrite !fmap_cons. by rewrite Hf.
  - by constructor.
Qed.

(** X6. With a qubit register without repetitions and car identifiers in
    [range(len(qubit_register))], [phase_separator] raises no [IndexError]
    and yields one Molmer-Sorensen operation per unequal adjacent pair of
    the car sequence, each with factor +1 or -1 before [gamma] and each on
    two different qubits. *)
Theorem phase_separator_on_distinct_qubits {Qid} `{EqDecision Qid}
    (qubit_register : list Qid) (car_sequence : list Z) :
  NoDup qubit_register →
  Forall (λ c, 0 ≤ c < Z.of_nat (length qubit_register)) car_sequence →
  ∃ ops,
    phase_separator qubit_register car_sequence = (ops, Exhausted) ∧
    length ops = adjacent_differ car_sequence ∧
    factor <$> ops = sign <$> spin_glass car_sequence ∧
    Forall (λ op, is_sign (factor op) ∧ qubit0 op ≠ qubit1 op) ops.
Proof.
  intros Hnd Hcars. pose proof (spin_glass_triples car_sequence) as Hts.
  destruct (separate_in_range qubit_register (spin_glass car_sequence) Hnd)
    as (ops & Hops & Hf & Hq).
  { eapply Forall_impl; [exact Hts|]. intros t (Hne & H0 & H1 & _).
    split_and!; [done|..];
      by eapply (proj1 (Forall_forall _ _) Hcars). }
  exists ops. split_and!; [done| |done|].
  - rewrite <-spin_glass_length, <-(length_fmap sign), <-Hf.
    by rewrite length_fmap.
  - apply Forall_lookup. intros i op Hop. split.
    + assert ((factor <$> ops) !! i = Some (factor op)) as Hfi
        by (by rewrite list_lookup_fmap, Hop).
      rewrite Hf, list_lookup_fmap in Hfi.
      destruct (spin_glass car_sequence !! i) as [t|] eqn:Ht; [|done].
      simpl in Hfi. injection Hfi as <-.
      by apply (Forall_lookup_1 _ _ _ _ Hts Ht).
    + by apply (Forall_lookup_1 _ _ _ _ Hq Hop).
Qed.

Lemma phase_separator_on_distinct_qubits_witness :
  ∃ ops : list (ms_on Z),
    phase_separator [10; 11; 12] [2; 0; 1; 1; 0; 2] = (ops, Exhausted) ∧
    Forall (λ op, is_sign (factor op) ∧ qubit0 op ≠ qubit1 op) ops.
Proof.
  assert (NoDup [10; 11; 12]) as Hnd by (by apply (bool_decide_unpack _)).
  assert (Forall (λ c, 0 ≤ c < Z.of_nat (length [10; 11; 12]))
            [2; 0; 1; 1; 0; 2]) as Hcars
    by (repeat constructor; simpl; lia).
  destruct (phase_separator_on_distinct_qubits [10; 11; 12]
              [2; 0; 1; 1; 0; 2] Hnd Hcars) as (ops & Hops & _ & _ & Hq).
  exists ops. split; assumption.
Defined.

(** ** File names of tasks *)

Section file_names.
Import ReadoutScan.

Lemma string_app_cons c (s t : string) :
  String c s +:+ t = String c (s +:+ t).
Proof. reflexivity. Qed.

Lemma string_app_nil (t : string) : "" +:+ t = t.
Proof. reflexivity. Qed.

Lemma string_app_assoc (s1 s2 s3 : string) :
  (s1 +:+ s2) +:+ s3 = s1 +:+ s2 +:+ s3.
Proof.
  induction s1 as [|c s1 IH]; [done|]. rewrite !string_app_cons. by f_equal.
Qed.

Lemma all_chars_app P s1 s2 :
  all_chars P (s1 +:+ s2) = all_chars P s1 && all_chars P s2.
Proof.
  induction s1 as [|c s1 IH]; [done|]. rewrite string_app_cons. simpl.
  rewrite <-andb_assoc. by f_equal.
Qed.

(** A string is cut in one way only at the first character that fails
    [P]. *)
Lemma string_cut P c s1 s2 t1 t2 :
  all_chars P s1 = true → all_chars P s2 = true → P c = false →
  s1 +:+ String c t1 = s2 +:+ String c t2 → s1 = s2 ∧ t1 = t2.
Proof.
  intros H1 H2 Hc. revert s2 H2.
  induction s1 as [|d s1 IH]; intros [|e s2] H2 Heq;
    rewrite ?string_app_cons, ?string_app_nil in Heq; simpl in *.
  - by simplify_eq.
  - simplify_eq. apply andb_true_iff in H2 as [? _]. congruence.
  - simplify_eq. apply andb_true_iff in H1 as [? _]. congruence.
  - simplify_eq. apply andb_true_iff in H1 as [_ H1].
    apply andb_true_iff in H2 as [_ H2].
    destruct (IH H1 s2 H2) as [-> ->]; done.
Qed.

Lemma pretty_N_char_numeric x : numeric (pretty_N_char x) = true.
Proof. unfold pretty_N_char. by repeat case_match. Qed.

Lemma pretty_N_go_numeric x s :
  all_chars numeric s = true → all_chars numeric (pretty_N_go x s) = true.
Proof.
  revert s. induction (N.lt_wf_0 x) as [x _ IH]; intros s Hs.
  assert (x = 0 ∨ 0 < x)%N as [->|Hx] by lia.
  - by rewrite pretty_N_go_0.
  - rewrite pretty_N_go_step by done. apply IH.
    + by apply N.div_lt.
    + simpl. by rewrite pretty_N_char_numeric.
Qed.

Lemma pretty_N_numeric (x : N) : all_chars numeric (pretty x) = true.
Proof.
  unfold pretty, pretty_N. case_decide; [done|].
  by apply pretty_N_go_numeric.
Qed.

Lemma str_numeric n : all_chars numeric (str n) = true.
Proof.
  unfold str, pretty, pretty_Z. destruct n as [|p|p]; [done|..].
  - apply pretty_N_numeric.
  - simpl. apply pretty_N_numeric.
Qed.

Lemma str_inj n m : str n = str m → n = m.
Proof. apply pretty_Z_inj. Qed.

Lemma abbrev_n_shots_inj n m :
  _abbrev_n_shots n = _abbrev_n_shots m → n = m.
Proof.
  unfold _abbrev_n_shots. intros Heq.
  assert (∀ a b, str a +:+ "k" ≠ str b) as Hk.
  { intros a b Hab. pose proof (str_numeric b) as Hb.
    rewrite <-Hab, all_chars_app, str_numeric in Hb. done. }
  destruct (decide (n `mod` 1000 = 0)) as [Hn|Hn];
    destruct (decide (m `mod` 1000 = 0)) as [Hm|Hm].
  - destruct (string_cut numeric "k" (str (n `div` 1000))
                (str (m `div` 1000)) "" "") as [Hd _];
      [apply str_numeric..|done|done|].
    apply str_inj in Hd.
    rewrite (Z.div_mod n 1000), (Z.div_mod m 1000) by done. lia.
  - by destruct (Hk _ _ Heq).
  - by destruct (Hk _ _ (eq_sym Heq)).
  - by apply str_inj.
Qed.

Lemma abbrev_grid_qubit_inj q1 q2 :
  _abbrev_grid_qubit q1 = _abbrev_grid_qubit q2 → q1 = q2.
Proof.
  unfold _abbrev_grid_qubit. intros Heq.
  destruct (string_cut numeric "_" _ _ _ _
              (str_numeric _) (str_numeric _) eq_refl Heq) as [Hr Hc].
  apply str_inj in Hr, Hc. destruct q1, q2. simpl in *. by subst.
Qed.

End file_names.

Section task_file_names.
Import ReadoutScan.

Lemma string_length_app (s t : string) :
  String.length (s +:+ t) = (String.length s + String.length t)%nat.
Proof.
  induction s as [|c s IH]; [done|]. rewrite string_app_cons. simpl.
  by rewrite IH.
Qed.

(** X7. [_abbrev_n_shots] gives different shot counts different file-name
    components: the [k] form is taken by the multiples of 1000 only, and no
    printed integer ends in [k]. *)
Theorem abbrev_n_shots_unique (n m : Z) :
  _abbrev_n_shots n = _abbrev_n_shots m ↔ n = m.
Proof. split; [apply abbrev_n_shots_inj|by intros ->]. Qed.

(** X8. [_abbrev_grid_qubit] gives different grid qubits different
    file-name components, negative rows and columns included. *)
Theorem abbrev_grid_qubit_unique (q1 q2 : GridQubit) :
  _abbrev_grid_qubit q1 = _abbrev_grid_qubit q2 ↔ q1 = q2.
Proof. split; [apply abbrev_grid_qubit_inj|by intros ->]. Qed.

(** X9. Among tasks whose [dataset_id] and [device_name] contain no [/],
    [fn] maps different tasks to different file names. *)
Theorem fn_unique_without_slash (t1 t2 : ReadoutScanTask) :
  all_chars no_slash (dataset_id t1) = true →
  all_chars no_slash (device_name t1) = true →
  all_chars no_slash (dataset_id t2) = true →
  all_chars no_slash (device_name t2) = true →
  fn t1 = fn t2 → t1 = t2.
Proof.
  intros Hd1 Hv1 Hd2 Hv2 Hfn. unfold fn, _abbrev_grid_qubit in Hfn.
  cbv zeta in Hfn.
  rewrite !string_app_assoc in Hfn.
  rewrite ?string_app_cons, ?string_app_nil in Hfn.
  destruct (string_cut no_slash "/" _ _ _ _ Hd1 Hd2 eq_refl Hfn) as [Hd Hfn1].
  destruct (string_cut no_slash "/" _ _ _ _ Hv1 Hv2 eq_refl Hfn1) as [Hv Hfn2].
  injection Hfn2 as Hfn3.
  destruct (string_cut numeric "_" _ _ _ _
              (str_numeric _) (str_numeric _) eq_refl Hfn3) as [Hrow Hfn4].
  destruct (string_cut numeric "/" _ _ _ _
              (str_numeric _) (str_numeric _) eq_refl Hfn4) as [Hcol Hfn5].
  injection Hfn5 as Hfn6.
  destruct (string_cut numeric "_" _ _ _ _
              (str_numeric _) (str_numeric _) eq_refl Hfn6) as [Hrf Hns].
  apply str_inj in Hrow, Hcol, Hrf. apply abbrev_n_shots_inj in Hns.
  destruct t1 as [? ? ? [? ?] ?], t2 as [? ? ? [? ?] ?]. simpl in *.
  by subst.
Qed.

Lemma fn_unique_without_slash_witness :
  all_chars no_slash "2020-02-tutorial" = true
  ∧ all_chars no_slash "Syc23-simulator" = true
  ∧ {| dataset_id := "2020-02-tutorial"; device_name := "Syc23-simulator";
       n_shots := 40000; qubit := {| row := 3; col := 2 |};
       resolution_factor := 6 |} =
    {| dataset_id := "2020-02-tutorial"; device_name := "Syc23-simulator";
       n_shots := 39000 + 1000; qubit := {| row := 3; col := 7 - 5 |};
       resolution_factor := 6 |}.
Proof.
  split_and!; [reflexivity..|].
  apply fn_unique_without_slash; reflexivity.
Defined.

(** X10. [fn] does not tell a [/] inside [dataset_id] or [device_name] from
    the separator it writes itself: moving the part of [dataset_id] after a
    [/] to the front of [device_name] gives another task with the same file
    name. *)
Theorem fn_collides_on_slash (x y dev : string) (n rf : Z) (q : GridQubit) :
  let t1 := {| dataset_id := x +:+ "/" +:+ y; device_name := dev;
               n_shots := n; qubit := q; resolution_factor := rf |} in
  let t2 := {| dataset_id := x; device_name := y +:+ "/" +:+ dev;
               n_shots := n; qubit := q; resolution_factor := rf |} in
  t1 ≠ t2 ∧ fn t1 = fn t2.
Proof.
  intros t1 t2. split.
  - intros Heq. assert (dataset_id t1 = dataset_id t2) as Hd by (by rewrite Heq).
    simpl in Hd. apply (f_equal String.length) in Hd.
    rewrite string_length_app in Hd. simpl in Hd. lia.
  - unfold fn, t1, t2. simpl. by rewrite !string_app_assoc.
Qed.

End task_file_names.

(** ** When [color_changes] raises *)

Lemma py_getitem_invalid {A} (xs : list A) (c : Z) :
  ¬ (- Z.of_nat (length xs) ≤ c < Z.of_nat (length xs)) →
  py_getitem xs c = None.
Proof.
  intros Hc. unfold py_getitem. cbv zeta.
  rewrite !decide_False; [done|lia..].
Qed.

Lemma paint_invalid pb cars :
  Exists (λ c, ¬ valid_index pb c) cars →
  ∀ painted colors, paint pb painted colors cars = None.
Proof.
  induction cars as [|c cars IH]; intros Hex painted colors.
  { by apply Exists_nil in Hex. }
  cbn [paint]. destruct (py_getitem pb c) as [b|] eqn:Hb.
  - apply Exists_cons in Hex as [Hc|Hex].
    + by rewrite py_getitem_invalid in Hb.
    + simpl. case_decide; by apply IH.
  - simpl. by case_decide.
Qed.

(** X11. [color_changes] raises [IndexError] exactly when some element of
    the car sequence is not a valid index into the paint bitstring, also
    when that car would only be reached after other cars were painted. *)
Theorem color_changes_index_error (paint_bitstring car_sequence : list Z) :
  color_changes paint_bitstring car_sequence = None ↔
  Exists (λ c, ¬ valid_index paint_bitstring c) car_sequence.
Proof.
  split.
  - intros Hnone. apply not_Forall_Exists.
    { intros c. unfold valid_index. apply _. }
    intros Hvalid.
    destruct (color_changes_spec _ _ Hvalid) as (? & _ & _ & _ & ?).
    congruence.
  - intros Hex. unfold color_changes. by rewrite paint_invalid.
Qed.

(** ** The sign rule of [spin_glass], and its symmetry *)

(** X12. On a well-formed car sequence the sign that [spin_glass] yields
    for an unequal adjacent pair [(i, i+1)] is the one the docstring
    describes (ferromagnetic for equal occurrence status, antiferromagnetic
    otherwise), unless position [i] directly follows its own partner: then
    it is the opposite sign. *)
Theorem spin_glass_sign_rule (s : list Z) (i : nat) (a b : Z) :
  each_twice s →
  s !! i = Some a → s !! S i = Some b → a ≠ b →
  emissions s !! i =
    Some (Some (a, b,
                if after_adjacent_pair s i
                then - prescribed_sign s i else prescribed_sign s i)).
Proof. apply emitted_sign. Qed.

Lemma spin_glass_sign_rule_witness :
  emissions [0; 1; 1; 2; 2; 0] !! 2%nat = Some (Some (1, 2, -1))
  ∧ prescribed_sign [0; 1; 1; 2; 2; 0] 2 = 1.
Proof.
  split; [|reflexivity].
  apply (spin_glass_sign_rule [0; 1; 1; 2; 2; 0] 2 1 2).
  - by apply (bool_decide_unpack _).
  - reflexivity.
  - reflexivity.
  - lia.
Defined.

Lemma omap_reverse {A B} (f : A → option B) (l : list A) :
  omap f (reverse l) = reverse (omap f l).
Proof.
  induction l as [|x l IH]; [done|].
  rewrite reverse_cons, omap_app, IH. csimpl.
  destruct (f x); simpl; [by rewrite reverse_cons|by rewrite app_nil_r].
Qed.

Lemma reverse_seq m :
  reverse (seq 0 m) = (λ i, m - 1 - i)%nat <$> seq 0 m.
Proof.
  apply list_eq. intros i. rewrite list_lookup_fmap.
  destruct (decide (i < m)%nat) as [Hi|Hi].
  - rewrite reverse_lookup by (by rewrite length_seq).
    rewrite length_seq, !lookup_seq_lt by lia. simpl. f_equal. lia.
  - rewrite !lookup_ge_None_2; [done|..];
      rewrite ?length_reverse, length_seq; lia.
Qed.

Lemma omap_fmap_compose {A B C} (f : B → option C) (h : A → B) (l : list A) :
  omap f (h <$> l) = omap (f ∘ h) l.
Proof.
  induction l as [|x l IH]; [done|]. csimpl. rewrite IH. done.
Qed.

Lemma omap_ext_in {A B} (f g : A → option B) (l : list A) :
  (∀ x, x ∈ l → f x = g x) → omap f l = omap g l.
Proof.
  induction l as [|x l IH]; intros Hl; [done|]. csimpl.
  rewrite (Hl x) by (by left). rewrite IH; [done|].
  intros y ?. apply Hl. by right.
Qed.

(** The documented interaction of a pair of the reversed sequence is the
    documented interaction of the mirrored pair, with the two cars
    exchanged. *)
Lemma pair_at_reverse s i :
  each_twice s → (S i < length s)%nat →
  pair_at (reverse s) i =
    (λ t : interaction, (t.1.2, t.1.1, t.2)) <$> pair_at s (length s - S (S i)).
Proof.
  intros Hs Hi. unfold pair_at.
  rewrite !reverse_lookup by lia.
  rewrite prescribed_sign_reverse by done.
  replace (S (length s - S (S i))) with (length s - S i)%nat by lia.
  destruct (lookup_lt_is_Some_2 s (length s - S i)) as [a ->]; [lia|].
  destruct (lookup_lt_is_Some_2 s (length s - S (S i))) as [b ->]; [lia|].
  done.
Qed.

(** X13. On a well-formed car sequence without adjacent pairs, reversing
    the sequence reverses the order of the interactions that [spin_glass]
    yields and exchanges the two cars of each, with every sign kept. *)
Theorem spin_glass_reverse_without_adjacent_pairs (s : list Z) :
  each_twice s → adjacent_equal s = 0%nat →
  spin_glass (reverse s) =
    reverse ((λ t : interaction, (t.1.2, t.1.1, t.2)) <$> spin_glass s).
Proof.
  intros Hs H0.
  rewrite (spin_glass_without_adjacent_pairs s Hs H0).
  rewrite (spin_glass_without_adjacent_pairs (reverse s))
    by auto using each_twice_reverse, adjacent_equal_reverse.
  rewrite length_reverse, list_fmap_omap, <-omap_reverse, reverse_seq.
  rewrite omap_fmap_compose. apply omap_ext_in.
  intros i [_ Hi]%elem_of_seq. simpl.
  rewrite pair_at_reverse by (done || lia).
  do 2 f_equal. lia.
Qed.

Lemma spin_glass_reverse_without_adjacent_pairs_witness :
  spin_glass [2; 0; 1; 2; 0; 1] =
    reverse ((λ t : interaction, (t.1.2, t.1.1, t.2))
               <$> spin_glass [1; 0; 2; 1; 0; 2]).
Proof.
  apply (spin_glass_reverse_without_adjacent_pairs [1; 0; 2; 1; 0; 2]).
  - by apply (bool_decide_unpack _).
  - reflexivity.
Defined.

(** ** Where [phase_separator] stops *)

Lemma separate_stops {Qid} `{EqDecision Qid}
    (reg : list Qid) (ts : list interaction) :
  ∀ ops e,
    separate reg ts = (ops, e) →
    ∃ served rest,
      ts = served ++ rest ∧
      length ops = length served ∧
      factor <$> ops = sign <$> served ∧
      Forall2 (λ op t, py_getitem reg t.1.1 = Some (qubit0 op) ∧
                       py_getitem reg t.1.2 = Some (qubit1 op) ∧
                       qubit0 op ≠ qubit1 op) ops served ∧
      match e with
      | Exhausted => rest = []
      | IndexError =>
          ∃ t rest', rest = t :: rest' ∧
                     (py_getitem reg t.1.1 = None ∨
                      py_getitem reg t.1.2 = None)
      | ValueError =>
          ∃ t rest' q, rest = t :: rest' ∧
                       py_getitem reg t.1.1 = Some q ∧
                       py_getitem reg t.1.2 = Some q
      end.
Proof.
  induction ts as [|[[c0 c1] sg] ts IH]; intros ops e Hsep.
  { simpl in Hsep. simplify_eq. exists [], [].
    split_and!; try done; by constructor. }
  cbn [separate] in Hsep.
  destruct (py_getitem reg c0) as [q0|] eqn:H0; cycle 1.
  { simplify_eq. exists [], ((c0, c1, sg) :: ts).
    split_and!; try done; try (by constructor). eexists _, _. eauto. }
  destruct (py_getitem reg c1) as [q1|] eqn:H1; cycle 1.
  { simplify_eq. exists [], ((c0, c1, sg) :: ts).
    split_and!; try done; try (by constructor). eexists _, _. eauto. }
  destruct (decide (q0 = q1)) as [->|Hne].
  { simplify_eq. exists [], ((c0, c1, sg) :: ts).
    split_and!; try done; try (by constructor). eexists _, _, _. eauto. }
  destruct (separate reg ts) as [ops' e'] eqn:Hts. simplify_eq.
  destruct (IH ops' e eq_refl) as (served & rest & -> & Hlen & Hf & Hq & He).
  exists ((c0, c1, sg) :: served), rest. split_and!.
  - done.
  - simpl. by rewrite Hlen.
  - rewrite !fmap_cons. by rewrite Hf.
  - by constructor.
  - done.
Qed.

(** X14. [phase_separator] serves the interactions of [spin_glass] in
    order, one operation each on two different qubits, and stops at the
    first interaction it cannot serve: with [IndexError] when one of its
    cars is not a valid index into the qubit register, with [ValueError]
    when its two cars name the same qubit; it ends normally exactly when
    there is no such interaction, having yielded one operation per
    interaction. *)
Theorem phase_separator_stops_at_first_failure {Qid} `{EqDecision Qid}
    (qubit_register : list Qid) (car_sequence : list Z) :
  let '(ops, e) := phase_separator qubit_register car_sequence in
  ∃ served rest,
    spin_glass car_sequence = served ++ rest ∧
    length ops = length served ∧
    factor <$> ops = sign <$> served ∧
    Forall2 (λ op t, py_getitem qubit_register t.1.1 = Some (qubit0 op) ∧
                     py_getitem qubit_register t.1.2 = Some (qubit1 op) ∧
                     qubit0 op ≠ qubit1 op) ops served ∧
    match e with
    | Exhausted => rest = []
    | IndexError =>
        ∃ t rest', rest = t :: rest' ∧
                   (py_getitem qubit_register t.1.1 = None ∨
                    py_getitem qubit_register t.1.2 = None)
    | ValueError =>
        ∃ t rest' q, rest = t :: rest' ∧
                     py_getitem qubit_register t.1.1 = Some q ∧
                     py_getitem qubit_register t.1.2 = Some q
    end.
Proof.
  unfold phase_separator.
  destruct (separate qubit_register (spin_glass car_sequence))
    as [ops e] eqn:Hsep.
  by apply separate_stops.
Qed.

(** ** Exchanging the two colours *)

Lemma py_getitem_fmap {A B} (f : A → B) (xs : list A) (c : Z) :
  py_getitem (f <$> xs) c = f <$> py_getitem xs c.
Proof.
  unfold py_getitem. cbv zeta. rewrite length_fmap.
  repeat case_decide; by rewrite ?list_lookup_fmap.
Qed.

Lemma derived_color_flip pb s i c :
  Forall is_bit pb →
  derived_color pb s i = Some c →
  ∃ c', derived_color ((λ b, 1 - b) <$> pb) s i = Some c' ∧
        int_value c' = 1 - int_value c.
Proof.
  intros Hbits. unfold derived_color.
  destruct (s !! i) as [car|]; [|done]. simpl. rewrite py_getitem_fmap.
  destruct (py_getitem pb car) as [b|] eqn:Hb; [|done]. simpl.
  assert (is_bit b) as Hbit.
  { unfold py_getitem in Hb. repeat case_decide; try done;
      by apply (Forall_lookup_1 _ _ _ _ Hbits Hb). }
  intros [= <-]. eexists. split; [done|].
  destruct Hbit as [-> | ->]; by case_decide.
Qed.

(** X15. Exchanging the two colours in a 0/1 paint bitstring does not
    change the result of [color_changes]. *)
Theorem color_changes_flip (paint_bitstring car_sequence : list Z) :
  Forall is_bit paint_bitstring →
  Forall (valid_index paint_bitstring) car_sequence →
  color_changes ((λ b, 1 - b) <$> paint_bitstring) car_sequence =
  color_changes paint_bitstring car_sequence.
Proof.
  intros Hbits Hvalid.
  assert (Forall (valid_index ((λ b, 1 - b) <$> paint_bitstring))
            car_sequence) as Hvalid'.
  { eapply Forall_impl; [exact Hvalid|]. intros c.
    unfold valid_index. by rewrite length_fmap. }
  destruct (color_changes_spec _ _ Hvalid) as (colors & Hlen & Hcolors & _ & ->).
  destruct (color_changes_spec _ _ Hvalid')
    as (colors' & Hlen' & Hcolors' & _ & ->).
  do 2 f_equal. unfold changes. rewrite Hlen, Hlen'. f_equal.
  apply list_filter_iff. intros i.
  assert (∀ j c, colors !! j = Some c →
                 ∃ c', colors' !! j = Some c' ∧
                       int_value c' = 1 - int_value c) as Hflip.
  { intros j c Hc. rewrite Hcolors in Hc. rewrite Hcolors'.
    by apply derived_color_flip. }
  assert (∀ j, colors !! j = None → colors' !! j = None) as Hnone.
  { intros j Hj%lookup_ge_None. apply lookup_ge_None. lia. }
  symmetry. unfold differs_at. split.
  - intros (c0 & c1 & H0 & H1 & Hne).
    destruct (Hflip _ _ H0) as (c0' & H0' & Hv0).
    destruct (Hflip _ _ H1) as (c1' & H1' & Hv1).
    exists c0', c1'. split_and!; [done..|lia].
  - intros (c0' & c1' & H0' & H1' & Hne).
    destruct (colors !! i) as [c0|] eqn:H0;
      [|by rewrite (Hnone i H0) in H0'].
    destruct (colors !! S i) as [c1|] eqn:H1;
      [|by rewrite (Hnone _ H1) in H1'].
    destruct (Hflip _ _ H0) as (? & ? & Hv0).
    destruct (Hflip _ _ H1) as (? & ? & Hv1).
    simplify_eq. exists c0, c1. split_and!; [done..|lia].
Qed.

Lemma color_changes_flip_witness :
  color_changes [1; 0; 0] [0; 1; 2; 2; 0; 1] =
  color_changes [0; 1; 1] [0; 1; 2; 2; 0; 1].
Proof.
  apply (color_changes_flip [0; 1; 1] [0; 1; 2; 2; 0; 1]).
  - unfold is_bit. repeat constructor; lia.
  - unfold valid_index. repeat constructor; simpl; lia.
Defined.
